(** * Books4All: the relational schema and the authentication snippets

    Part I embeds the migration script (the DDL of [users], [books],
    [orders], [messages], [order_items] and [reviews]) as data, together
    with the row-level semantics PostgreSQL gives to that DDL.
    Part II embeds the JavaScript handlers ([getDB], [syncUser],
    [authMiddleware], [protect], the NextAuth callbacks and [authorize]).
    Part III states and proves the properties. *)

From Stdlib Require Import ZArith Lia.
From stdpp Require Import base decidable option list gmap strings fin_maps.

Open Scope string_scope.
Open Scope list_scope.
Open Scope nat_scope.

(* ===================================================================== *)
(** * Part I: the migration script                                         *)
(* ===================================================================== *)

Module Sql.

(** ** Values, types and rows *)

Inductive table := users | books | orders | messages | order_items | reviews.

#[global] Instance table_eq_dec : EqDecision table.
Proof. solve_decision. Defined.

Inductive sqltype :=
| VARCHAR (n : nat)
| TEXT
| BOOLEAN
| UUID
| INTEGER
| DECIMAL (precision scale : nat)
| TIMESTAMPTZ
| JSONB
| ENUM (labels : list string).

(** A [DECIMAL(p, s)] value is kept as the integer [value * 10^s], so that
    no currency arithmetic goes through floating point. *)
Inductive sqlval :=
| NULL
| Text (s : string)
| Bool (b : bool)
| Uuid (u : N)
| Int (z : Z)
| Dec (unscaled : Z)
| Timestamp (t : Z)
| Json (s : string)
| Label (s : string).

#[global] Instance sqlval_eq_dec : EqDecision sqlval.
Proof. solve_decision. Defined.

(** A row maps column names to values; a column the row does not mention
    reads as [NULL]. *)
Abbreviation row := (gmap string sqlval).

Definition col (r : row) (c : string) : sqlval := default NULL (r !! c).

Definition has_type (ty : sqltype) (v : sqlval) : bool :=
  match v, ty with
  | NULL, _ => true
  | Text s, VARCHAR n => bool_decide (String.length s ≤ n)%nat
  | Text _, TEXT => true
  | Bool _, BOOLEAN => true
  | Uuid u, UUID => bool_decide (u < 2 ^ 128)%N
  | Int z, INTEGER => bool_decide (- 2 ^ 31 ≤ z < 2 ^ 31)%Z
  | Dec z, DECIMAL p _ => bool_decide (Z.abs z < 10 ^ Z.of_nat p)%Z
  | Timestamp _, TIMESTAMPTZ => true
  | Json _, JSONB => true
  | Label s, ENUM ls => bool_decide (s ∈ ls)
  | _, _ => false
  end.

(** ** The schema, transcribed statement by statement *)

Definition user_role : sqltype := ENUM ["BUYER"; "SELLER"; "ADMIN"].
Definition oauth_provider : sqltype := ENUM ["GOOGLE"; "FACEBOOK"; "GITHUB"].
Definition book_condition : sqltype :=
  ENUM ["NEW"; "LIKE_NEW"; "GOOD"; "ACCEPTABLE"].
Definition book_status : sqltype := ENUM ["DRAFT"; "ACTIVE"; "SOLD"; "ARCHIVED"].
Definition order_status : sqltype :=
  ENUM ["PENDING"; "PAYMENT_PROCESSING"; "PAID"; "SHIPPED"; "DELIVERED";
        "CANCELLED"; "REFUNDED"].

Inductive nullability := NOT_NULL | NULLABLE.
Inductive column_default := NO_DEFAULT | DEFAULT_now.

#[global] Instance nullability_eq_dec : EqDecision nullability.
Proof. solve_decision. Defined.

#[global] Instance column_default_eq_dec : EqDecision column_default.
Proof. solve_decision. Defined.

Record column := Column {
  col_name : string;
  col_type : sqltype;
  col_null : nullability;
  col_default : column_default
}.

(** The three timestamp columns and the key every table ends with. *)
Definition id_and_timestamps : list column :=
  [ Column "id" UUID NOT_NULL NO_DEFAULT;
    Column "created_at" TIMESTAMPTZ NOT_NULL DEFAULT_now;
    Column "updated_at" TIMESTAMPTZ NOT_NULL DEFAULT_now;
    Column "deleted_at" TIMESTAMPTZ NULLABLE NO_DEFAULT ].

Definition columns (t : table) : list column :=
  match t with
  | users =>
      [ Column "email" (VARCHAR 255) NOT_NULL NO_DEFAULT;
        Column "password_hash" (VARCHAR 255) NULLABLE NO_DEFAULT;
        Column "role" user_role NOT_NULL NO_DEFAULT;
        Column "email_verified" BOOLEAN NOT_NULL NO_DEFAULT;
        Column "is_active" BOOLEAN NOT_NULL NO_DEFAULT;
        Column "first_name" (VARCHAR 100) NULLABLE NO_DEFAULT;
        Column "last_name" (VARCHAR 100) NULLABLE NO_DEFAULT;
        Column "avatar_url" TEXT NULLABLE NO_DEFAULT;
        Column "oauth_provider" oauth_provider NULLABLE NO_DEFAULT;
        Column "oauth_provider_id" (VARCHAR 255) NULLABLE NO_DEFAULT ]
      ++ id_and_timestamps
  | books =>
      [ Column "seller_id" UUID NOT_NULL NO_DEFAULT;
        Column "isbn" (VARCHAR 20) NULLABLE NO_DEFAULT;
        Column "title" (VARCHAR 500) NOT_NULL NO_DEFAULT;
        Column "author" (VARCHAR 255) NOT_NULL NO_DEFAULT;
        Column "description" TEXT NULLABLE NO_DEFAULT;
        Column "condition" book_condition NOT_NULL NO_DEFAULT;
        Column "price" (DECIMAL 10 2) NOT_NULL NO_DEFAULT;
        Column "quantity" INTEGER NOT_NULL NO_DEFAULT;
        Column "images" JSONB NULLABLE NO_DEFAULT;
        Column "status" book_status NOT_NULL NO_DEFAULT;
        Column "category" (VARCHAR 100) NULLABLE NO_DEFAULT;
        Column "publisher" (VARCHAR 255) NULLABLE NO_DEFAULT;
        Column "publication_year" INTEGER NULLABLE NO_DEFAULT;
        Column "language" (VARCHAR 50) NOT_NULL NO_DEFAULT;
        Column "page_count" INTEGER NULLABLE NO_DEFAULT ]
      ++ id_and_timestamps
  | orders =>
      [ Column "buyer_id" UUID NOT_NULL NO_DEFAULT;
        Column "total_amount" (DECIMAL 10 2) NOT_NULL NO_DEFAULT;
        Column "status" order_status NOT_NULL NO_DEFAULT;
        Column "stripe_payment_id" (VARCHAR 255) NULLABLE NO_DEFAULT;
        Column "stripe_session_id" (VARCHAR 255) NULLABLE NO_DEFAULT;
        Column "shipping_address" TEXT NULLABLE NO_DEFAULT;
        Column "notes" TEXT NULLABLE NO_DEFAULT ]
      ++ id_and_timestamps
  | messages =>
      [ Column "sender_id" UUID NOT_NULL NO_DEFAULT;
        Column "recipient_id" UUID NOT_NULL NO_DEFAULT;
        Column "book_id" UUID NULLABLE NO_DEFAULT;
        Column "content" TEXT NOT_NULL NO_DEFAULT;
        Column "read_at" TIMESTAMPTZ NULLABLE NO_DEFAULT ]
      ++ id_and_timestamps
  | order_items =>
      [ Column "order_id" UUID NOT_NULL NO_DEFAULT;
        Column "book_id" UUID NULLABLE NO_DEFAULT;
        Column "quantity" INTEGER NOT_NULL NO_DEFAULT;
        Column "price_at_purchase" (DECIMAL 10 2) NOT_NULL NO_DEFAULT;
        Column "book_title" (VARCHAR 500) NOT_NULL NO_DEFAULT;
        Column "book_author" (VARCHAR 255) NOT_NULL NO_DEFAULT ]
      ++ id_and_timestamps
  | reviews =>
      [ Column "book_id" UUID NOT_NULL NO_DEFAULT;
        Column "user_id" UUID NOT_NULL NO_DEFAULT;
        Column "rating" INTEGER NOT_NULL NO_DEFAULT;
        Column "comment" TEXT NULLABLE NO_DEFAULT;
        Column "is_verified_purchase" BOOLEAN NOT_NULL NO_DEFAULT ]
      ++ id_and_timestamps
  end.

(** [PRIMARY KEY], [UNIQUE] and [CREATE UNIQUE INDEX]: each entry is the
    list of columns that must not repeat. *)
Definition unique_keys (t : table) : list (list string) :=
  match t with
  | users => [ ["id"]; ["email"] ]
  | books => [ ["id"] ]
  | orders => [ ["id"]; ["stripe_payment_id"]; ["stripe_session_id"] ]
  | messages => [ ["id"] ]
  | order_items => [ ["id"] ]
  | reviews => [ ["id"]; ["book_id"; "user_id"] ]
  end.

(** [CHECK] constraints.  SQL evaluates the condition in three-valued
    logic: on a [NULL] operand the result is unknown ([None]), and only a
    definite [false] rejects the row. *)
Definition ck_review_rating_range (r : row) : option bool :=
  match col r "rating" with
  | Int rating => Some ((1 <=? rating)%Z && (rating <=? 5)%Z)
  | _ => None
  end.

Definition checks (t : table) : list (string * (row → option bool)) :=
  match t with
  | reviews => [ ("ck_review_rating_range", ck_review_rating_range) ]
  | _ => []
  end.

Inductive ref_action := CASCADE | SET_NULL.

#[global] Instance ref_action_eq_dec : EqDecision ref_action.
Proof. solve_decision. Defined.

(** [FOREIGN KEY(fk_column) REFERENCES fk_parent (id) ON DELETE fk_on_delete],
    declared in table [fk_table]. *)
Record foreign_key := ForeignKeyDecl {
  fk_table : table;
  fk_column : string;
  fk_parent : table;
  fk_on_delete : ref_action
}.

Definition foreign_keys : list foreign_key :=
  [ ForeignKeyDecl books "seller_id" users CASCADE;
    ForeignKeyDecl orders "buyer_id" users CASCADE;
    ForeignKeyDecl messages "book_id" books SET_NULL;
    ForeignKeyDecl messages "recipient_id" users CASCADE;
    ForeignKeyDecl messages "sender_id" users CASCADE;
    ForeignKeyDecl order_items "book_id" books SET_NULL;
    ForeignKeyDecl order_items "order_id" orders CASCADE;
    ForeignKeyDecl reviews "book_id" books CASCADE;
    ForeignKeyDecl reviews "user_id" users CASCADE ].

(** The keys declared in [t], and the keys of other tables that point at [t]. *)
Definition declared_in (t : table) : list foreign_key :=
  filter (λ fk, fk_table fk = t) foreign_keys.

Definition referencing (t : table) : list foreign_key :=
  filter (λ fk, fk_parent fk = t) foreign_keys.

(** ** Database states *)

Record DB := MkDB {
  t_users : list row;
  t_books : list row;
  t_orders : list row;
  t_messages : list row;
  t_order_items : list row;
  t_reviews : list row
}.

Definition empty_db : DB := MkDB [] [] [] [] [] [].

Definition rows (t : table) (db : DB) : list row :=
  match t with
  | users => t_users db
  | books => t_books db
  | orders => t_orders db
  | messages => t_messages db
  | order_items => t_order_items db
  | reviews => t_reviews db
  end.

Definition set_rows (t : table) (rs : list row) (db : DB) : DB :=
  match t with
  | users => MkDB rs (t_books db) (t_orders db) (t_messages db) (t_order_items db) (t_reviews db)
  | books => MkDB (t_users db) rs (t_orders db) (t_messages db) (t_order_items db) (t_reviews db)
  | orders => MkDB (t_users db) (t_books db) rs (t_messages db) (t_order_items db) (t_reviews db)
  | messages => MkDB (t_users db) (t_books db) (t_orders db) rs (t_order_items db) (t_reviews db)
  | order_items => MkDB (t_users db) (t_books db) (t_orders db) (t_messages db) rs (t_reviews db)
  | reviews => MkDB (t_users db) (t_books db) (t_orders db) (t_messages db) (t_order_items db) rs
  end.

(** ** Constraint checking *)

Inductive violation :=
| UnknownColumn (c : string)
| TypeMismatch (c : string)
| NotNull (c : string)
| CheckFailed (name : string)
| Unique (t : table) (cols : list string)
| ForeignKey (child : table) (c : string).

#[global] Instance violation_eq_dec : EqDecision violation.
Proof. solve_decision. Defined.

Definition column_names (t : table) : list string := col_name <$> columns t.

Definition unknown_columns (t : table) (r : row) : list violation :=
  UnknownColumn <$> filter (λ c, c ∉ column_names t) (elements (dom r)).

Definition type_mismatches (t : table) (r : row) : list violation :=
  (λ c, TypeMismatch (col_name c)) <$>
    filter (λ c, has_type (col_type c) (col r (col_name c)) = false) (columns t).

Definition null_violations (t : table) (r : row) : list violation :=
  (λ c, NotNull (col_name c)) <$>
    filter (λ c, col_null c = NOT_NULL ∧ col r (col_name c) = NULL) (columns t).

Definition check_violations (t : table) (r : row) : list violation :=
  (λ ck, CheckFailed ck.1) <$> filter (λ ck, ck.2 r = Some false) (checks t).

(** Two rows collide on a key when they agree on every column of the key
    and none of these values is [NULL] (SQL never equates [NULL]s). *)
Definition same_key (cols : list string) (r1 r2 : row) : bool :=
  forallb (λ c, bool_decide (col r1 c ≠ NULL ∧ col r1 c = col r2 c)) cols.

Definition unique_violations (t : table) (r : row) (others : list row) : list violation :=
  Unique t <$> filter (λ cols, existsb (same_key cols r) others = true) (unique_keys t).

(** A non-[NULL] reference must name the [id] of an existing parent row. *)
Definition dangling (db : DB) (r : row) (fk : foreign_key) : bool :=
  bool_decide (col r (fk_column fk) ≠ NULL) &&
  negb (existsb (λ p, bool_decide (col p "id" = col r (fk_column fk)))
          (rows (fk_parent fk) db)).

Definition fk_violations (t : table) (r : row) (db : DB) : list violation :=
  (λ fk, ForeignKey t (fk_column fk)) <$>
    filter (λ fk, dangling db r fk = true) (declared_in t).

(** Every rule of the schema that row [r], placed in table [t] next to the
    rows [others], would break.  PostgreSQL reports the first one it meets;
    the order is not fixed by the DDL, so the whole list is kept. *)
Definition violations (t : table) (r : row) (others : list row) (db : DB) : list violation :=
  unknown_columns t r ++ type_mismatches t r ++ null_violations t r ++
  check_violations t r ++ unique_violations t r others ++ fk_violations t r db.

(** ** Statements *)

Inductive outcome :=
| Committed (db' : DB)
| Rejected (broken : list violation).

(** The state after a statement: a rejected statement changes nothing. *)
Definition state_after (db : DB) (o : outcome) : DB :=
  match o with
  | Committed db' => db'
  | Rejected _ => db
  end.

(** [DEFAULT now()] fills a timestamp the statement leaves out. *)
Definition with_defaults (now : Z) (t : table) (r : row) : row :=
  foldr (λ c acc,
           match col_default c, r !! col_name c with
           | DEFAULT_now, None => <[col_name c := Timestamp now]> acc
           | _, _ => acc
           end) r (columns t).

Definition default_now_columns (t : table) : list string :=
  col_name <$> filter (λ c, col_default c = DEFAULT_now) (columns t).

Definition insert_row (now : Z) (t : table) (r : row) (db : DB) : outcome :=
  let r' := with_defaults now t r in
  match violations t r' (rows t db) db with
  | [] => Committed (set_rows t (rows t db ++ [r']) db)
  | broken => Rejected broken
  end.

(** [v] is the key of one of the rows just removed. *)
Definition refers_to (keys : list sqlval) (v : sqlval) : bool :=
  bool_decide (v ≠ NULL ∧ v ∈ keys).

Definition nullify (c : string) (keys : list sqlval) (r : row) : row :=
  if refers_to keys (col r c) then <[c := NULL]> r else r.

(** The keys of the rows a [DELETE] selects, and the database once they
    are gone from their table. *)
Definition deleted_keys (t : table) (victim : row → bool) (db : DB) : list sqlval :=
  (λ r, col r "id") <$> filter (λ r, victim r = true) (rows t db).

Definition without (t : table) (victim : row → bool) (db : DB) : DB :=
  set_rows t (filter (λ r, victim r = false) (rows t db)) db.

(** What a key [fk] does to its own table when the rows with [keys] are
    removed from the table it points at.  [delete] is the statement a
    cascade goes on with. *)
Definition referential_action (delete : table → (row → bool) → DB → option DB)
    (keys : list sqlval) (fk : foreign_key) (d : DB) : option DB :=
  match fk_on_delete fk with
  | CASCADE => delete (fk_table fk) (λ r, refers_to keys (col r (fk_column fk))) d
  | SET_NULL =>
      Some (set_rows (fk_table fk)
              (nullify (fk_column fk) keys <$> rows (fk_table fk) d) d)
  end.

Definition apply_actions (delete : table → (row → bool) → DB → option DB)
    (keys : list sqlval) (fks : list foreign_key) (d : DB) : option DB :=
  foldl (λ acc fk, d' ← acc; referential_action delete keys fk d') (Some d) fks.

(** [DELETE FROM t WHERE victim], with the referential actions of every
    key that points at [t].  [fuel] bounds the depth of the cascade; the
    deepest chain of the schema is users, books, reviews. *)
Fixpoint delete_rows (fuel : nat) (t : table) (victim : row → bool) (db : DB)
  : option DB :=
  match fuel with
  | O => None
  | S fuel' =>
      apply_actions (delete_rows fuel') (deleted_keys t victim db) (referencing t)
        (without t victim db)
  end.

Definition cascade_depth : nat := 3.

Definition delete_where (t : table) (victim : row → bool) (db : DB) : option DB :=
  delete_rows cascade_depth t victim db.

(** [UPDATE t SET assign WHERE id = key].  No key of the schema declares
    [ON UPDATE], so changing an [id] that is still referenced is refused. *)
Definition still_referenced (t : table) (old new : row) (db : DB) : list violation :=
  if bool_decide (col old "id" = col new "id") then []
  else (λ fk, ForeignKey (fk_table fk) (fk_column fk)) <$>
         filter (λ fk, existsb (λ r, refers_to [col old "id"] (col r (fk_column fk)))
                         (rows (fk_table fk) db) = true)
                (referencing t).

Fixpoint update_rows (t : table) (key : sqlval) (assign : row) (db : DB)
    (before after : list row) : list row + list violation :=
  match after with
  | [] => inl before
  | r :: rest =>
      if bool_decide (col r "id" ≠ NULL ∧ col r "id" = key) then
        let r' := assign ∪ r in
        match violations t r' (before ++ rest) db ++ still_referenced t r r' db with
        | [] => update_rows t key assign db (before ++ [r']) rest
        | broken => inr broken
        end
      else update_rows t key assign db (before ++ [r]) rest
  end.

Definition update_where_id (t : table) (key : sqlval) (assign : row) (db : DB) : outcome :=
  match update_rows t key assign db [] (rows t db) with
  | inl rs => Committed (set_rows t rs db)
  | inr broken => Rejected broken
  end.

Inductive statement :=
| INSERT (t : table) (r : row)
| UPDATE (t : table) (key : sqlval) (assign : row)
| DELETE (t : table) (victim : row → bool).

Definition exec (now : Z) (s : statement) (db : DB) : outcome :=
  match s with
  | INSERT t r => insert_row now t r db
  | UPDATE t key assign => update_where_id t key assign db
  | DELETE t victim =>
      match delete_where t victim db with
      | Some db' => Committed db'
      | None => Rejected []
      end
  end.

(** The states the database can be in: whatever a sequence of committed
    statements produces from the freshly migrated, empty database. *)
Inductive reachable : DB → Prop :=
| reachable_empty : reachable empty_db
| reachable_exec now s db db' :
    reachable db → exec now s db = Committed db' → reachable db'.

(** The pair a review is about. *)
Definition review_pair (r : row) : sqlval * sqlval :=
  (col r "book_id", col r "user_id").

(** The reviews are in order: no pair occurs twice, and every review names
    its book and its user. *)
Definition reviews_ok (l : list row) : Prop :=
  NoDup (review_pair <$> l) ∧
  Forall (λ r, col r "book_id" ≠ NULL ∧ col r "user_id" ≠ NULL) l.

(** A property of rows that the nulling of a reference cannot break. *)
Definition survives_nullify (P : row → Prop) : Prop :=
  ∀ c keys r, P r → P (nullify c keys r).


(** ** A small marketplace, built by statements

    Ann (user 1) sells a book (10); Bob (user 2) orders it, writes to Ann
    about it and reviews it. *)

Definition ann : row :=
  list_to_map [("id", Uuid 1); ("email", Text "ann@x.com"); ("role", Label "SELLER");
               ("email_verified", Bool true); ("is_active", Bool true)].

Definition bob : row :=
  list_to_map [("id", Uuid 2); ("email", Text "bob@x.com"); ("role", Label "BUYER");
               ("email_verified", Bool false); ("is_active", Bool true)].

Definition anns_book : row :=
  list_to_map [("id", Uuid 10); ("seller_id", Uuid 1); ("title", Text "Emma");
               ("author", Text "Austen"); ("condition", Label "GOOD");
               ("price", Dec 1250); ("quantity", Int 1); ("status", Label "ACTIVE");
               ("language", Text "en")].

Definition bobs_order : row :=
  list_to_map [("id", Uuid 20); ("buyer_id", Uuid 2); ("total_amount", Dec 1250);
               ("status", Label "PAID")].

Definition bobs_item : row :=
  list_to_map [("id", Uuid 30); ("order_id", Uuid 20); ("book_id", Uuid 10);
               ("quantity", Int 1); ("price_at_purchase", Dec 1250);
               ("book_title", Text "Emma"); ("book_author", Text "Austen")].

Definition bobs_message : row :=
  list_to_map [("id", Uuid 40); ("sender_id", Uuid 2); ("recipient_id", Uuid 1);
               ("book_id", Uuid 10); ("content", Text "Still available?")].

Definition review (id : N) (rating : Z) : row :=
  list_to_map [("id", Uuid id); ("book_id", Uuid 10); ("user_id", Uuid 2);
               ("rating", Int rating); ("is_verified_purchase", Bool true)].

Definition has_id (k : N) (r : row) : bool := bool_decide (col r "id" = Uuid k).

Definition market_script : list statement :=
  [ INSERT users ann; INSERT users bob; INSERT books anns_book;
    INSERT orders bobs_order; INSERT order_items bobs_item;
    INSERT messages bobs_message ].

(** Run a script, the clock advancing by one per statement; [None] as soon
    as a statement is rejected. *)
Fixpoint run_script (now : Z) (script : list statement) (db : DB) : option DB :=
  match script with
  | [] => Some db
  | s :: script' =>
      match exec now s db with
      | Committed db' => run_script (now + 1) script' db'
      | Rejected _ => None
      end
  end.

Definition market : DB := default empty_db (run_script 1 market_script empty_db).

Definition reviewed_market : DB :=
  state_after market (exec 7 (INSERT reviews (review 50 5)) market).

(** ** What the constraints keep true of every state *)

(** No two rows of [l] collide on the key [cols]. *)
Fixpoint no_clash (cols : list string) (l : list row) : Prop :=
  match l with
  | [] => True
  | r :: l' => Forall (λ o, same_key cols r o = false) l' ∧ no_clash cols l'
  end.

(** Every declared key of every table holds in [db]. *)
Definition keys_respected (db : DB) : Prop :=
  ∀ t cols, cols ∈ unique_keys t → no_clash cols (rows t db).

(** What the column definitions and the [CHECK]s of table [t] ask of one
    row, whatever the other rows are. *)
Definition well_formed (t : table) (r : row) : Prop :=
  (∀ c, is_Some (r !! c) → c ∈ column_names t) ∧
  Forall (λ c, has_type (col_type c) (col r (col_name c)) = true ∧
               (col_null c = NOT_NULL → col r (col_name c) ≠ NULL)) (columns t) ∧
  Forall (λ ck, ck.2 r ≠ Some false) (checks t).

(** The reference [v] names a row of the table [fk] points at. *)
Definition resolves (db : DB) (fk : foreign_key) (v : sqlval) : Prop :=
  ∃ p : row, p ∈ rows (fk_parent fk) db ∧ col p "id" = v.

(** Every reference that is not [NULL] resolves, but for those [D] allows
    to dangle: with [D] empty this is referential integrity, and in the
    middle of a cascade [D] holds the keys of the rows already removed. *)
Definition integrity_up_to (D : foreign_key → sqlval → Prop) (db : DB) : Prop :=
  ∀ fk (r : row), fk ∈ foreign_keys → r ∈ rows (fk_table fk) db →
    col r (fk_column fk) ≠ NULL →
    resolves db fk (col r (fk_column fk)) ∨ D fk (col r (fk_column fk)).

(** Every reference of [db] that is not [NULL] resolves. *)
Definition referential_integrity (db : DB) : Prop :=
  ∀ fk (r : row), fk ∈ foreign_keys → r ∈ rows (fk_table fk) db →
    col r (fk_column fk) ≠ NULL → resolves db fk (col r (fk_column fk)).

(** The tables a [DELETE FROM t] can change: [t] itself and, through the
    keys that point at it, the tables downstream of it. *)
Fixpoint downstream (fuel : nat) (t : table) : list table :=
  t :: match fuel with
       | O => []
       | S fuel' => referencing t ≫= λ fk, downstream fuel' (fk_table fk)
       end.

End Sql.

(* ===================================================================== *)
(** * Part II: the JavaScript handlers                                     *)
(* ===================================================================== *)

(** The handlers are embedded as they are written.  A property or an
    identifier the source misspells is looked up under the misspelt name:
    headers and method tables are maps from names, and [lookup_var]
    resolves an identifier against the bindings in scope.  What lies
    behind an import (the MongoDB driver, jsonwebtoken, bcryptjs, Mongoose,
    Express) is a parameter, or a small model of its documented
    behaviour where a property needs one. *)

Module Js.

(** ** Values, exceptions and effects *)

Inductive value :=
| undefined
| null
| boolean (b : bool)
| number (z : Z)
| str (s : string)
| date (t : Z)
| oid (n : N).

#[global] Instance value_eq_dec : EqDecision value.
Proof. solve_decision. Defined.

(** [if (v)] and [!v]. *)
Definition truthy (v : value) : bool :=
  match v with
  | undefined | null => false
  | boolean b => b
  | number z => negb (z =? 0)%Z
  | str s => negb (String.eqb s "")
  | date _ | oid _ => true
  end.

(** Plain objects with scalar properties; reading a property the object
    lacks gives [undefined]. *)
Abbreviation object := (gmap string value).

Definition prop (o : object) (k : string) : value := default undefined (o !! k).

Inductive error :=
| ReferenceError (identifier : string)
| TypeError (message : string)
| Error (message : string)
| JsonWebTokenError (message : string)
| BSONError (message : string)
| MongoServerError (code : N)
| MongoNetworkError (message : string)
| ERR_HTTP_HEADERS_SENT.

#[global] Instance error_eq_dec : EqDecision error.
Proof. solve_decision. Defined.

Inductive completion (A : Type) :=
| Return (a : A)
| Throw (e : error).
Arguments Return {A} a.
Arguments Throw {A} e.

(** A computation over a mutable state [S] that returns or throws; what it
    wrote before throwing stays written. *)
Definition eff (S A : Type) : Type := S → completion A * S.

#[global] Instance eff_ret {S} : MRet (eff S) := λ A a s, (Return a, s).

#[global] Instance eff_bind {S} : MBind (eff S) := λ A B k m s,
  match m s with
  | (Return a, s') => k a s'
  | (Throw e, s') => (Throw e, s')
  end.

Definition throw {S A} (e : error) : eff S A := λ s, (Throw e, s).

Definition lift {S A} (c : completion A) : eff S A := λ s, (c, s).

Definition try_catch {S A} (body : eff S A) (handler : error → eff S A) : eff S A :=
  λ s, match body s with
       | (Return a, s') => (Return a, s')
       | (Throw e, s') => handler e s'
       end.

Definition modify {S} (f : S → S) : eff S unit := λ s, (Return (), f s).

(** Resolving an identifier against the bindings in scope. *)
Fixpoint lookup_var {A} (scope : list (string * A)) (x : string) : completion A :=
  match scope with
  | [] => Throw (ReferenceError x)
  | (y, a) :: scope' => if String.eqb x y then Return a else lookup_var scope' x
  end.

(** [s.split(sep)] for a one-character separator, and [s.startsWith(p)]. *)
Fixpoint split (sep : Ascii.ascii) (s : string) : list string :=
  match s with
  | EmptyString => [EmptyString]
  | String c rest =>
      match split sep rest with
      | [] => []
      | w :: ws => if Ascii.eqb c sep then EmptyString :: w :: ws else String c w :: ws
      end
  end.

Definition space : Ascii.ascii := Ascii.Ascii false false false false false true false false.

Definition startsWith (p s : string) : bool := String.prefix p s.

(** A string that may be [undefined], as a condition. *)
Definition truthy_str (s : option string) : bool :=
  match s with
  | None => false
  | Some x => negb (String.eqb x "")
  end.

(** [process.env] *)
Abbreviation environment := (gmap string string).

(** ** server/config/db.js *)

Record MongoClient := { client_uri : string }.

(** The handle [client.db()] returns. *)
Record Db := { db_client : MongoClient }.

(** The module variables [client] and [db], what [console.error] printed,
    and the network: the outcomes the next connection attempts will have
    ([None] for an attempt that succeeds; past the end of the list every
    attempt succeeds) together with the number of attempts made so far. *)
Record db_module := {
  var_client : option MongoClient;
  var_db : option Db;
  console : list error;
  network : list (option error);
  connects : nat
}.

(** [new MongoClient(uri, {})]: the driver refuses a connection string that
    is absent or has another scheme. *)
Definition new_MongoClient (uri : option string) : completion MongoClient :=
  match uri with
  | None => Throw (TypeError "uri is undefined")
  | Some u =>
      if startsWith "mongodb://" u || startsWith "mongodb+srv://" u
      then Return {| client_uri := u |}
      else Throw (Error "Invalid scheme")
  end.

(** [await client.connect()] *)
Definition connect : eff db_module unit := λ m,
  let m' := {| var_client := var_client m; var_db := var_db m; console := console m;
               network := tail (network m); connects := S (connects m) |} in
  match network m with
  | Some e :: _ => (Throw e, m')
  | _ => (Return (), m')
  end.

Definition set_client (c : MongoClient) : eff db_module unit :=
  modify (λ m, {| var_client := Some c; var_db := var_db m; console := console m;
                  network := network m; connects := connects m |}).

Definition set_db (d : Db) : eff db_module unit :=
  modify (λ m, {| var_client := var_client m; var_db := Some d; console := console m;
                  network := network m; connects := connects m |}).

Definition console_error (e : error) : eff db_module unit :=
  modify (λ m, {| var_client := var_client m; var_db := var_db m;
                  console := console m ++ [e];
                  network := network m; connects := connects m |}).

(** [getDB]: the value the returned promise settles to; [Return None] is a
    promise fulfilled with [undefined]. *)
Definition getDB (env : environment) : eff db_module (option Db) :=
  try_catch
    (let uri := env !! "MONGODB_URI" in
     c ← lift (new_MongoClient uri);
     _ ← set_client c;
     _ ← connect;
     let d := {| db_client := c |} in
     _ ← set_db d;
     mret (Some d))
    (λ error,
       _ ← console_error error;
       mret None).

(** ** client/src/lib/models/user.js *)

Inductive schema_type := SchemaString.

Record schema_path := {
  path_name : string;
  path_type : schema_type;
  path_required : bool;
  path_unique : bool;
  path_default : option value
}.

Definition userSchema : list schema_path :=
  [ {| path_name := "name"; path_type := SchemaString; path_required := true;
       path_unique := false; path_default := None |};
    {| path_name := "email"; path_type := SchemaString; path_required := true;
       path_unique := true; path_default := None |};
    {| path_name := "image"; path_type := SchemaString; path_required := false;
       path_unique := false; path_default := None |};
    {| path_name := "role"; path_type := SchemaString; path_required := false;
       path_unique := false; path_default := Some (str "user") |} ].

(** [{ timestamps: true }] *)
Definition userSchema_timestamps : bool := true.

(** The unique indexes a schema asks the collection to carry. *)
Definition unique_indexes (schema : list schema_path) : list string :=
  path_name <$> filter (λ p, path_unique p = true) schema.

(** ** The users collection and the driver operations on it *)

Record collection := {
  docs : list object;
  unique_fields : list string
}.

(** The driver stores [undefined] as [null]; a field a stored document
    lacks compares as [null], in queries and in indexes alike. *)
Definition bson (v : value) : value :=
  match v with
  | undefined => null
  | _ => v
  end.

Definition field (d : object) (k : string) : value := default null (d !! k).

(** [d] satisfies the equality query [q]. *)
Definition matches (q d : object) : bool :=
  bool_decide (map_Forall (λ k v, field d k = bson v) q).

(** An ObjectId no stored document carries yet. *)
Definition fresh_oid (ds : list object) : N :=
  N.succ (foldr N.max 0%N
            (omap (λ d, match d !! "_id" with Some (oid n) => Some n | _ => None end) ds)).

(** Some other document already holds [d]'s value on one of the uniquely
    indexed [fields]. *)
Definition collides (fields : list string) (d : object) (others : list object) : bool :=
  existsb (λ e, existsb (λ f, bool_decide (field e f = field d f)) fields) others.

(** What a driver call resolves to. *)
Inductive reply :=
| Found (d : option object)
| Inserted (insertedId : value) (ops : option (list object))
| Updated (matchedCount : nat).

Definition reply_truthy (r : reply) : bool :=
  match r with
  | Found None => false
  | _ => true
  end.

Definition findOne (q : object) : eff collection reply := λ c,
  (Return (Found (snd <$> list_find (λ d, matches q d = true) (docs c))), c).

(** [insertOne]: a fresh [_id] unless the document brings one; error 11000
    is the duplicate-key error.  [with_ops] tells whether the result still
    carries the legacy [ops] array. *)
Definition insertOne (with_ops : bool) (d : object) : eff collection reply := λ c,
  let d0 := bson <$> d in
  let d' := match d0 !! "_id" with
            | Some _ => d0
            | None => <["_id" := oid (fresh_oid (docs c))]> d0
            end in
  if collides ("_id" :: unique_fields c) d' (docs c)
  then (Throw (MongoServerError 11000%N), c)
  else (Return (Inserted (field d' "_id") (if with_ops then Some [d'] else None)),
        {| docs := docs c ++ [d']; unique_fields := unique_fields c |}).

(** [updateOne(q, { $set: s })]: the first match only, no upsert. *)
Definition updateOne (q s : object) : eff collection reply := λ c,
  match list_find (λ d, matches q d = true) (docs c) with
  | None => (Return (Updated 0), c)
  | Some (i, d) =>
      let d' := (bson <$> s) ∪ d in
      if collides (filter (λ f, is_Some (s !! f)) (unique_fields c)) d' (delete i (docs c))
      then (Throw (MongoServerError 11000%N), c)
      else (Return (Updated 1),
            {| docs := <[i := d']> (docs c); unique_fields := unique_fields c |})
  end.

(** A collection object as the handlers see it: the operation behind each
    method name, if the object has a method of that name at all. *)
Inductive operation := FindOne | InsertOne | UpdateOne.

Record coll_object := {
  method : string → option operation;
  result_has_ops : bool
}.

(** The method names of the MongoDB driver's [Collection]. *)
Definition mongodb_methods (name : string) : option operation :=
  if String.eqb name "findOne" then Some FindOne
  else if String.eqb name "insertOne" then Some InsertOne
  else if String.eqb name "updateOne" then Some UpdateOne
  else None.

(** [obj.name(a1, a2)] *)
Definition invoke (obj : coll_object) (name : string) (a1 a2 : object)
  : eff collection reply :=
  match method obj name with
  | None => throw (TypeError (String.append name " is not a function"))
  | Some FindOne => findOne a1
  | Some InsertOne => insertOne (result_has_ops obj) a1
  | Some UpdateOne => updateOne a1 a2
  end.

(** ** Responses *)

Inductive json :=
| JString (s : string)
| JObject (o : object)
| JUndefined.

Record response := {
  status : nat;
  body : list (string * json)
}.

#[global] Instance json_eq_dec : EqDecision json.
Proof. solve_decision. Defined.

#[global] Instance response_eq_dec : EqDecision response.
Proof. solve_decision. Defined.

(** ** syncUser *)

(** [result.ops[0]] *)
Definition first_op (result : reply) : completion json :=
  match result with
  | Inserted _ (Some ops) =>
      Return (match ops with d :: _ => JObject d | [] => JUndefined end)
  | _ => Throw (TypeError "Cannot read properties of undefined (reading '0')")
  end.

Definition json_of_reply (r : reply) : json :=
  match r with
  | Found (Some d) => JObject d
  | _ => JUndefined
  end.

(** A call of [syncUser] between two of its [await]s.  Each step below runs
    the handler up to and including its next database operation; the
    database performs one operation at a time. *)
Inductive task :=
| Lookup (body : object)
| Writing (body : object) (userExists : reply)
| Finished (result : completion ()) (sent : list response).

(** Lines 5 to 13.  [users] is what [getDb().collection("users")] evaluates
    to: the module that would export [getDb] by default is not among the
    sources, so the handle is a parameter. *)
Definition syncUser_lookup (users : completion coll_object) (body : object)
    (c : collection) : collection * task :=
  let email := prop body "email" in
  if negb (truthy email) then
    (c, Finished (Return ())
          [ {| status := 400; body := [("message", JString " Email is required")] |} ])
  else
    match users with
    | Throw e => (c, Finished (Throw e) [])
    | Return usersCollection =>
        match invoke usersCollection "findone" {[ "email" := email ]} ∅ c with
        | (Return userExists, c') => (c', Writing body userExists)
        | (Throw e, c') => (c', Finished (Throw e) [])
        end
    end.

(** Lines 15 to 27. *)
Definition syncUser_write (users : completion coll_object) (now : Z) (body : object)
    (userExists : reply) (c : collection) : collection * task :=
  let name := prop body "name" in
  let email := prop body "email" in
  let image := prop body "image" in
  match users with
  | Throw e => (c, Finished (Throw e) [])
  | Return usersCollection =>
      if negb (reply_truthy userExists) then
        match invoke usersCollection "insertOne"
                (<["name" := name]> (<["email" := email]> (<["image" := image]>
                   (<["role" := str "user"]> {[ "createdAt" := date now ]})))) ∅ c with
        | (Return result, c') =>
            match first_op result with
            | Return u =>
                (c', Finished (Return ())
                       [ {| status := 201;
                            body := [("message", JString "User created"); ("user", u)] |} ])
            | Throw e => (c', Finished (Throw e) [])
            end
        | (Throw e, c') => (c', Finished (Throw e) [])
        end
      else
        match invoke usersCollection "updateOne" {[ "email" := email ]}
                (<["name" := name]> {[ "image" := image ]}) c with
        | (Return _, c') =>
            (c', Finished (Return ())
                   [ {| status := 200;
                        body := [("message", JString "User already exists");
                                 ("user", json_of_reply userExists)] |} ])
        | (Throw e, c') => (c', Finished (Throw e) [])
        end
  end.

Definition step (users : completion coll_object) (now : Z) (c : collection) (t : task)
  : collection * task :=
  match t with
  | Lookup body => syncUser_lookup users body c
  | Writing body userExists => syncUser_write users now body userExists c
  | Finished _ _ => (c, t)
  end.

(** One call, run without interruption. *)
Definition syncUser (users : completion coll_object) (now : Z) (body : object)
    (c : collection) : collection * task :=
  let '(c1, t1) := step users now c (Lookup body) in
  step users now c1 t1.

(** Two calls in flight at once.  A schedule says whose turn each next
    step is; the clock reads [nowA] for the first call and [nowB] for the
    second. *)
Inductive turn := FirstCall | SecondCall.

Record race := {
  shared : collection;
  call_A : task;
  call_B : task
}.

Definition advance (users : completion coll_object) (nowA nowB : Z) (r : race) (t : turn)
  : race :=
  match t with
  | FirstCall =>
      let '(c, a) := step users nowA (shared r) (call_A r) in
      {| shared := c; call_A := a; call_B := call_B r |}
  | SecondCall =>
      let '(c, b) := step users nowB (shared r) (call_B r) in
      {| shared := c; call_A := call_A r; call_B := b |}
  end.

Definition run_race (users : completion coll_object) (nowA nowB : Z)
    (bodyA bodyB : object) (c : collection) (schedule : list turn) : race :=
  foldl (advance users nowA nowB)
        {| shared := c; call_A := Lookup bodyA; call_B := Lookup bodyB |} schedule.

(** How many stored users carry this email. *)
Definition count_email (email : value) (c : collection) : nat :=
  length (filter (λ d, field d "email" = bson email) (docs c)).

(** ** The Express middlewares *)

#[global] Instance completion_ret : MRet completion := λ A a, Return a.

#[global] Instance completion_bind : MBind completion := λ A B k m,
  match m with
  | Return a => k a
  | Throw e => Throw e
  end.

Record request := {
  headers : gmap string string;
  cookies : gmap string string
}.

(** What a middleware stored in [req.user]. *)
Inductive principal :=
| Decoded (payload : object)
| Looked_up (r : reply).

Definition principal_truthy (p : principal) : bool :=
  match p with
  | Decoded _ => true
  | Looked_up r => reply_truthy r
  end.

(** What a middleware did to the request and the response: the value of
    [req.user] (if assigned), the responses sent, the calls of [next] and
    the lines of [console.error]. *)
Record exchange := {
  req_user : option principal;
  sent : list response;
  next_calls : nat;
  logged : list error
}.

Definition fresh_exchange : exchange :=
  {| req_user := None; sent := []; next_calls := 0; logged := [] |}.

(** [res.status(code).json(body)]: Express refuses a second response. *)
Definition res_json {S} (code : nat) (b : list (string * json)) : eff (exchange * S) () :=
  λ '(x, s),
    match sent x with
    | [] => (Return (),
             ({| req_user := req_user x; sent := [ {| status := code; body := b |} ];
                 next_calls := next_calls x; logged := logged x |}, s))
    | _ :: _ => (Throw ERR_HTTP_HEADERS_SENT, (x, s))
    end.

Definition set_req_user {S} (p : principal) : eff (exchange * S) () :=
  modify (λ '(x, s), ({| req_user := Some p; sent := sent x;
                         next_calls := next_calls x; logged := logged x |}, s)).

Definition next {S} : eff (exchange * S) () :=
  modify (λ '(x, s), ({| req_user := req_user x; sent := sent x;
                         next_calls := Datatypes.S (next_calls x); logged := logged x |}, s)).

Definition log_error {S} (e : error) : eff (exchange * S) () :=
  modify (λ '(x, s), ({| req_user := req_user x; sent := sent x;
                         next_calls := next_calls x; logged := logged x ++ [e] |}, s)).

Definition on_store {A} (m : eff collection A) : eff (exchange * collection) A :=
  λ '(x, c), let '(r, c') := m c in (r, (x, c')).

Section Middlewares.

(** [jwt.verify(token, secret)] of the jsonwebtoken package: the decoded
    payload, or an exception for an absent, malformed, expired or wrongly
    signed token or an absent secret. *)
Variable jwt_verify : option string → option string → completion object.

(** [new ObjectId(v)] of the driver. *)
Variable new_ObjectId : value → completion N.

Variable env : environment.

(** [const JWT_SECRET = process.env.NEXTAUTH_SECRET;] *)
Definition JWT_SECRET : option string := env !! "NEXTAUTH_SECRET".

(** [a || b] on strings that may be undefined. *)
Definition or_else (a b : option string) : option string :=
  if truthy_str a then a else b.

Definition authMiddleware (req : request) : eff (exchange * ()) () :=
  let token :=
    or_else (h ← headers req !! "authoriztion"; split space h !! 1%nat)
            (cookies req !! "next-auth.session-token") in
  if negb (truthy_str token) then
    res_json 401 [("error", JString "No token")]
  else
    try_catch
      (decoded ← lift (jwt_verify token JWT_SECRET);
       _ ← set_req_user (Decoded decoded);
       next)
      (λ err, res_json 403 [("error", JString "Invalid token")]).

(** A database handle: [db.collection(name)]. *)
Definition db_handle : Type := string → coll_object.

(** Whether the [try] block left the function through its [return]. *)
Inductive flow := Returned | FellThrough.

(** [getDB] is what the call [getDB()] on line 15 completes with. *)
Definition protect (getDB : completion db_handle) (req : request)
  : eff (exchange * collection) () :=
  let authoriztion := headers req !! "authoriztion" in
  let guarded :=
    truthy_str authoriztion &&
    from_option (startsWith "Bearer") false authoriztion in
  let token := if guarded then h ← authoriztion; split space h !! 1%nat else None in
  fl ← (if guarded then
          try_catch
            (decoded ← lift (jwt_verify token (env !! "JWT_SECRET"));
             db ← lift getDB;
             let users := db "users" in
             id ← lift (new_ObjectId (prop decoded "id"));
             found ← on_store (invoke users "findOne" {[ "_id" := oid id ]} ∅);
             _ ← set_req_user (Looked_up found);
             if negb (reply_truthy found) then
               _ ← res_json 401 [("message", JString "Not authoriztied , user not found")];
               mret Returned
             else
               _ ← next;
               mret FellThrough)
            (λ error,
               _ ← log_error error;
               _ ← res_json 401 [("message", JString "Not authorized , token failed")];
               mret FellThrough)
        else mret FellThrough);
  match fl with
  | Returned => mret ()
  | FellThrough =>
      if negb (truthy_str token) then
        res_json 401 [("message", JString "Not authorized, no token")]
      else mret ()
  end.

(** The module of [protect] imports [getDb]; the identifier it calls is
    [getDB]. *)
Definition protect_imports (getDb : completion db_handle)
  : list (string * completion db_handle) :=
  [("getDb", getDb)].

Definition getDB_as_written (getDb : completion db_handle) : completion db_handle :=
  call ← lookup_var (protect_imports getDb) "getDB"; call.

End Middlewares.

(** ** client/src/app/api/auth/[...nextauth]/route.js *)

Section Credentials.

(** [connectDB()], [User.findOne(query)] and [bcrypt.compare(data, hash)]:
    Mongoose and bcryptjs, behind the imports of the route. *)
Variable connectDB : completion ().
Variable User_findOne : object → completion (option object).
Variable bcrypt_compare : value → value → completion bool.

(** The parameter is bound as [credentails]; the body reads [credentials]. *)
Definition authorize (credentails : object) : completion object :=
  _ ← connectDB;
  credentials ← lookup_var [("credentails", credentails)] "credentials";
  user ← User_findOne {[ "email" := prop credentials "email" ]};
  match user with
  | None => Throw (Error "No user Found")
  | Some user =>
      isValid ← bcrypt_compare (prop credentials "password") (prop user "password");
      if negb isValid then Throw (Error "Invaild password")
      else
        Return (<["id" := prop user "_id"]>
                  (<["name" := prop user "name"]> {[ "email" := prop user "email" ]}))
  end.

End Credentials.





(** ** Names used in the statements *)

(** A user document whose [_id] is the one the verified token of the
    request decodes to. *)
Definition token_user (jwt_verify : option string → option string → completion object)
    (new_ObjectId : value → completion N) (env : environment)
    (req : request) (c : collection) (d : object) : Prop :=
  ∃ h payload id,
    headers req !! "authoriztion" = Some h ∧
    jwt_verify (split space h !! 1) (env !! "JWT_SECRET") = Return payload ∧
    new_ObjectId (prop payload "id") = Return id ∧
    d ∈ docs c ∧ field d "_id" = oid id.

(** ** Concrete inputs used in the examples *)

(** The driver's collection object. *)
Definition mongodb_collection : coll_object :=
  {| method := mongodb_methods; result_has_ops := true |}.

Definition no_users : collection :=
  {| docs := []; unique_fields := unique_indexes userSchema |}.

Definition ann_body : object :=
  <["name" := str "Ann"]> {[ "email" := str "ann@x.com" ]}.

(** The same user under another name. *)
Definition ann_renamed_body : object :=
  <["name" := str "Ann B."]> {[ "email" := str "ann@x.com" ]}.

Definition ann_doc : object :=
  <["_id" := oid 7]> (<["name" := str "Ann"]> (<["email" := str "ann@x.com"]>
    (<["role" := str "admin"]> {[ "password" := str "hashed:pw" ]}))).

Definition one_user : collection :=
  {| docs := [ann_doc]; unique_fields := unique_indexes userSchema |}.

(** A stand-in for jsonwebtoken: one token verifies, under one secret. *)
Definition toy_verify (token secret : option string) : completion object :=
  match token, secret with
  | None, _ => Throw (JsonWebTokenError "jwt must be provided")
  | _, None => Throw (JsonWebTokenError "secret or public key must be provided")
  | Some t, Some k =>
      if String.eqb t "good.token" && String.eqb k "s3cret"
      then Return (<["id" := str "7"]> {[ "email" := str "ann@x.com" ]})
      else Throw (JsonWebTokenError "invalid signature")
  end.

(** A stand-in for [new ObjectId]: the one id the examples use. *)
Definition toy_ObjectId (v : value) : completion N :=
  match v with
  | str "7" => Return 7%N
  | undefined | null => Return 99%N
  | _ => Throw (BSONError "input must be a 24 character hex string")
  end.

Definition toy_env : environment :=
  <["NEXTAUTH_SECRET" := "s3cret"]> (<["JWT_SECRET" := "s3cret"]>
    {[ "MONGODB_URI" := "mongodb://localhost/Books4All" ]}).

(** A stand-in for bcryptjs: the hash of [p] is ["hashed:" ++ p];
    [compare] refuses anything but two strings. *)
Definition toy_compare (data hash : value) : completion bool :=
  match data, hash with
  | str d, str h => Return (String.eqb h (String.append "hashed:" d))
  | _, _ => Throw (Error "Illegal arguments")
  end.

(** A stand-in for [User.findOne] over a fixed collection. *)
Definition toy_findOne (c : collection) (q : object) : completion (option object) :=
  Return (snd <$> list_find (λ d, matches q d = true) (docs c)).

(** Requests: a forged token under the header's real name, and the
    header [protect] reads with no token after the scheme, a forged one and
    a good one. *)
Definition forged_request : request :=
  {| headers := {[ "authorization" := "Bearer forged" ]}; cookies := ∅ |}.

Definition bare_bearer_request : request :=
  {| headers := {[ "authoriztion" := "Bearer" ]}; cookies := ∅ |}.

Definition good_request : request :=
  {| headers := {[ "authoriztion" := "Bearer good.token" ]}; cookies := ∅ |}.

Definition driver_handle : completion db_handle := Return (λ _, mongodb_collection).

Definition ann_credentials : object :=
  <["email" := str "ann@x.com"]> {[ "password" := str "pw" ]}.


Definition refused_once : db_module :=
  {| var_client := None; var_db := None; console := [];
     network := [Some (MongoNetworkError "ECONNREFUSED"); None]; connects := 0 |}.

(** ** The route [/api/user] *)

(** [req.user] as [res.json] serialises it. *)
Definition json_of_principal (p : option principal) : json :=
  match p with
  | Some (Decoded payload) => JObject payload
  | Some (Looked_up r) => json_of_reply r
  | None => JUndefined
  end.

(** [res.json(body)]: status 200 unless one was set. *)
Definition api_user_handler : eff (exchange * ()) () := λ '(x, s),
  res_json 200 [("message", JString "User profile access granted");
                ("user", json_of_principal (req_user x))] (x, s).

(** [app.get(path, middleware, handler)]: Express runs the handler when
    the middleware calls [next()], and not otherwise. *)
Definition after_next (handler : eff (exchange * ()) ()) : eff (exchange * ()) () :=
  λ '(x, s), if bool_decide (0 < next_calls x) then handler (x, s) else (Return (), (x, s)).

Definition app_get (middleware : request → eff (exchange * ()) ())
    (handler : eff (exchange * ()) ()) (req : request) : eff (exchange * ()) () :=
  _ ← middleware req; after_next handler.

Definition get_api_user
    (jwt_verify : option string → option string → completion object)
    (env : environment) : request → eff (exchange * ()) () :=
  app_get (authMiddleware jwt_verify env) api_user_handler.

(** The header [protect] reads names the scheme and stops there. *)
Definition bare_scheme (req : request) : Prop :=
  ∃ h, headers req !! "authoriztion" = Some h ∧ startsWith "Bearer" h = true ∧
       truthy_str (split space h !! 1) = false.

(** ** Code that works on two pieces of state *)

Definition on_fst {S T A} (m : eff S A) : eff (S * T) A :=
  λ '(s, t), let '(r, s') := m s in (r, (s', t)).

Definition on_snd {S T A} (m : eff T A) : eff (S * T) A :=
  λ '(s, t), let '(r, t') := m t in (r, (s, t')).

(** ** The [signIn] callback of the first configuration *)

(** A [Db] object as the callback sees it: the function behind each
    method name, if the object has a method of that name at all. *)
Definition db_object : Type := string → option (string → coll_object).

(** The driver's [Db]: [collection(name)]. *)
Definition mongodb_db (name : string) : option (string → coll_object) :=
  if String.eqb name "collection" then Some (λ _, mongodb_collection) else None.

(** [db.name(arg)] *)
Definition call_db (db : db_object) (name arg : string) : completion coll_object :=
  match db name with
  | Some f => Return (f arg)
  | None => Throw (TypeError (String.append name " is not a function"))
  end.

(** [callbacks.signIn({ user })]; [db] is the module's
    [client.db("Books4All")], and the clock reads [now]. *)
Definition signIn (db : db_object) (now : Z) (user : object)
  : eff (db_module * collection) bool :=
  _ ← on_fst connect;
  users ← lift (call_db db "collection" "users");
  existing ← on_snd (invoke users "findone" {[ "email" := prop user "email" ]} ∅);
  if negb (reply_truthy existing) then
    users' ← lift (call_db db "collectoin" "users");
    _ ← on_snd (invoke users' "insertOne"
                  (<["name" := prop user "name"]> (<["email" := prop user "email"]>
                     {[ "createdAt" := date now ]})) ∅);
    mret true
  else mret true.

(** ** Starting the server *)

(** What [console.log] printed. *)
Inductive printed :=
| PrintedDb (d : option Db)
| PrintedString (s : option string).

Record server := {
  stdout : list printed;
  listening : option nat
}.

Definition console_log (p : printed) : eff server () :=
  modify (λ s, {| stdout := stdout s ++ [p]; listening := listening s |}).

(** [app.listen(port, callback)]: the callback runs once the port is bound. *)
Definition app_listen (port : nat) (callback : eff server ()) : eff server () :=
  _ ← modify (λ s, {| stdout := stdout s; listening := Some port |});
  callback.

(** Lines 16 to 19 of the entry point, whose import of [getDB] resolves
    to config/db.js. *)
Definition start_server (env : environment) : eff (db_module * server) () :=
  db ← on_fst (getDB env);
  _ ← on_snd (console_log (PrintedDb db));
  _ ← on_snd (console_log (PrintedString (env !! "MONGODB_URI")));
  on_snd (app_listen 5000 (console_log (PrintedString (Some "server running")))).

End Js.

(* ===================================================================== *)
(** * Part III: properties                                                 *)
(* ===================================================================== *)

(** ** The schema *)

Section SchemaFacts.
Import Sql.

Lemma rows_set_rows_eq t rs db : rows t (set_rows t rs db) = rs.
Proof. by destruct t. Qed.

Lemma rows_set_rows_ne t t' rs db : t ≠ t' → rows t' (set_rows t rs db) = rows t' db.
Proof. by destruct t, t'. Qed.

(** *** Defaults *)

Lemma with_defaults_keeps now t (r : row) c v :
  r !! c = Some v → with_defaults now t r !! c = Some v.
Proof.
  intros Hc. unfold with_defaults.
  induction (columns t) as [|x xs IH]; simpl; [done|].
  destruct (col_default x); [done|].
  case_match eqn:E; [done|].
  rewrite lookup_insert_ne; [done|]. intros <-. congruence.
Qed.

Lemma with_defaults_other now t (r : row) c :
  c ∉ default_now_columns t → with_defaults now t r !! c = r !! c.
Proof.
  unfold with_defaults, default_now_columns.
  induction (columns t) as [|x xs IH]; simpl; [done|].
  rewrite filter_cons. destruct (col_default x) eqn:D.
  - rewrite decide_False by done. done.
  - rewrite decide_True by done. rewrite fmap_cons, not_elem_of_cons.
    intros [Hne Hrest]. case_match; [by apply IH|].
    rewrite lookup_insert_ne by done. by apply IH.
Qed.

Lemma col_with_defaults now t (r : row) c :
  c ∉ default_now_columns t → col (with_defaults now t r) c = col r c.
Proof. intros H. unfold col. by rewrite with_defaults_other. Qed.

(** *** The cascade *)

Lemma Forall_filter_keeps {A} (P Q : A → Prop) `{∀ x, Decision (Q x)} (l : list A) :
  Forall P l → Forall P (filter Q l).
Proof.
  rewrite !Forall_forall. intros Hl x Hx.
  apply list_elem_of_filter in Hx as [_ Hx]. by apply Hl.
Qed.

Lemma refers_to_NULL keys : refers_to keys NULL = false.
Proof. unfold refers_to. apply bool_decide_eq_false. by intros [? _]. Qed.


Lemma col_insert_eq (r : row) c v : col (<[c := v]> r) c = v.
Proof. unfold col. by rewrite lookup_insert_eq. Qed.

Lemma col_insert_ne (r : row) c c' v : c ≠ c' → col (<[c := v]> r) c' = col r c'.
Proof. intros H. unfold col. by rewrite lookup_insert_ne. Qed.

Lemma col_nullify c keys r c' :
  col (nullify c keys r) c' = col r c' ∨ col (nullify c keys r) c' = NULL.
Proof.
  unfold nullify. destruct (refers_to keys (col r c)); [|by left].
  destruct (decide (c = c')) as [->|Hne].
  - right. apply col_insert_eq.
  - left. by apply col_insert_ne.
Qed.


Lemma nullify_not_referring c keys r : refers_to keys (col (nullify c keys r) c) = false.
Proof.
  unfold nullify. destruct (refers_to keys (col r c)) eqn:E; [|done].
  rewrite col_insert_eq. apply refers_to_NULL.
Qed.

Lemma not_referring_survives keys c :
  survives_nullify (λ r, refers_to keys (col r c) = false).
Proof.
  intros c' keys' r Hr.
  destruct (col_nullify c' keys' r c) as [-> | ->]; [done | apply refers_to_NULL].
Qed.





Lemma apply_actions_cons delete keys fk fks d :
  apply_actions delete keys (fk :: fks) d =
    referential_action delete keys fk d ≫= apply_actions delete keys fks.
Proof.
  unfold apply_actions. simpl. destruct (referential_action delete keys fk d); simpl; [done|].
  induction fks; simpl; [done|]. done.
Qed.

Lemma apply_actions_cons_Some delete keys fk fks d d' :
  apply_actions delete keys (fk :: fks) d = Some d' →
  ∃ d1, referential_action delete keys fk d = Some d1 ∧
        apply_actions delete keys fks d1 = Some d'.
Proof.
  rewrite apply_actions_cons.
  destruct (referential_action delete keys fk d) as [d1|]; [|done]. eauto.
Qed.

Lemma delete_rows_S fuel t victim db :
  delete_rows (S fuel) t victim db =
    apply_actions (delete_rows fuel) (deleted_keys t victim db) (referencing t)
      (without t victim db).
Proof. reflexivity. Qed.





(** Whatever holds of every row of a table, and survives the nulling of the
    columns that table declares [ON DELETE SET NULL], still holds of every
    row after a cascade. *)
Lemma apply_actions_Forall_in (P : row → Prop) t' delete keys fks : ∀ d d',
  (∀ fk, fk ∈ fks → fk_table fk = t' → fk_on_delete fk = SET_NULL →
         ∀ keys r, P r → P (nullify (fk_column fk) keys r)) →
  (∀ t victim d d', delete t victim d = Some d' →
                    Forall P (rows t' d) → Forall P (rows t' d')) →
  apply_actions delete keys fks d = Some d' →
  Forall P (rows t' d) → Forall P (rows t' d').
Proof.
  induction fks as [|fk fks IH]; intros d d' HP Hdel.
  { by intros [= <-]. }
  rewrite apply_actions_cons. unfold referential_action at 1.
  assert (∀ fk', fk' ∈ fks → fk_table fk' = t' → fk_on_delete fk' = SET_NULL →
                 ∀ keys r, P r → P (nullify (fk_column fk') keys r)) as HP'.
  { intros fk' Hin. apply HP. by right. }
  destruct (fk_on_delete fk) eqn:Hact.
  - destruct (delete _ _ d) as [d1|] eqn:Hd1; [|done]. simpl.
    intros Hrun Hd. eapply IH; [done..|]. by eapply Hdel.
  - simpl. intros Hrun Hd. eapply IH; [done..|].
    destruct (decide (fk_table fk = t')) as [E|Hne].
    + rewrite E, rows_set_rows_eq. apply Forall_fmap.
      eapply Forall_impl; [exact Hd|].
      intros r Hr. apply HP; [apply list_elem_of_here|done..].
    + by rewrite rows_set_rows_ne.
Qed.

Lemma without_Forall (P : row → Prop) t t' victim db :
  Forall P (rows t' db) → Forall P (rows t' (without t victim db)).
Proof.
  intros H. unfold without. destruct (decide (t = t')) as [->|Hne].
  - rewrite rows_set_rows_eq. by apply Forall_filter_keeps.
  - by rewrite rows_set_rows_ne.
Qed.

Lemma delete_rows_Forall_in (P : row → Prop) t' fuel : ∀ t victim db db',
  (∀ fk, fk ∈ foreign_keys → fk_table fk = t' → fk_on_delete fk = SET_NULL →
         ∀ keys r, P r → P (nullify (fk_column fk) keys r)) →
  delete_rows fuel t victim db = Some db' →
  Forall P (rows t' db) → Forall P (rows t' db').
Proof.
  induction fuel as [|fuel IH]; intros t victim db db' HP; [done|].
  rewrite delete_rows_S. intros Hrun Hdb.
  eapply apply_actions_Forall_in; [| |exact Hrun|by apply without_Forall].
  - intros fk Hfk. apply HP.
    unfold referencing in Hfk. by apply list_elem_of_filter in Hfk as [_ ?].
  - intros t1 v1 d1 d1'. by apply IH.
Qed.

Lemma delete_rows_Forall (P : row → Prop) t' fuel t victim db db' :
  survives_nullify P →
  delete_rows fuel t victim db = Some db' →
  Forall P (rows t' db) → Forall P (rows t' db').
Proof. intros HP. apply delete_rows_Forall_in. intros fk _ _ _. apply HP. Qed.

Lemma apply_actions_Forall (P : row → Prop) t' delete keys fks d d' :
  survives_nullify P →
  (∀ t victim d d', delete t victim d = Some d' →
                    Forall P (rows t' d) → Forall P (rows t' d')) →
  apply_actions delete keys fks d = Some d' →
  Forall P (rows t' d) → Forall P (rows t' d').
Proof. intros HP. apply apply_actions_Forall_in. intros fk _ _ _. apply HP. Qed.

(** The rows a [DELETE] selects are gone from its table afterwards, provided
    the selection cannot be undone by nulling a column. *)
Lemma delete_rows_removes fuel t victim db db' :
  survives_nullify (λ r, victim r = false) →
  delete_rows (S fuel) t victim db = Some db' →
  Forall (λ r, victim r = false) (rows t db').
Proof.
  intros HP. rewrite delete_rows_S. intros Hrun.
  eapply apply_actions_Forall; [exact HP| |exact Hrun|].
  - intros t1 v1 d1 d1'. by apply delete_rows_Forall.
  - unfold without. rewrite rows_set_rows_eq. apply Forall_forall. intros r Hr.
    by apply list_elem_of_filter in Hr as [? _].
Qed.



(** A table in which no key is declared [ON DELETE SET NULL] only ever
    loses rows in a cascade. *)
Lemma apply_actions_sublist t' delete keys fks : ∀ d d',
  Forall (λ fk, fk_on_delete fk = SET_NULL → fk_table fk ≠ t') fks →
  (∀ t victim d d', delete t victim d = Some d' → rows t' d' `sublist_of` rows t' d) →
  apply_actions delete keys fks d = Some d' →
  rows t' d' `sublist_of` rows t' d.
Proof.
  induction fks as [|fk fks IH]; intros d d' Hfks Hdel.
  { by intros [= <-]. }
  apply Forall_cons in Hfks as [Hfk Hfks].
  rewrite apply_actions_cons. unfold referential_action at 1.
  destruct (fk_on_delete fk).
  - destruct (delete _ _ d) as [d1|] eqn:Hd1; [|done]. simpl.
    intros Hrun. etrans; [by eapply IH|]. by eapply Hdel.
  - simpl. intros Hrun. etrans; [by eapply IH|].
    rewrite rows_set_rows_ne; [done|]. by apply Hfk.
Qed.

Lemma delete_rows_sublist t' fuel : ∀ t victim db db',
  Forall (λ fk, fk_on_delete fk = SET_NULL → fk_table fk ≠ t') foreign_keys →
  delete_rows fuel t victim db = Some db' →
  rows t' db' `sublist_of` rows t' db.
Proof.
  induction fuel as [|fuel IH]; intros t victim db db' Hfks; [done|].
  rewrite delete_rows_S. intros Hrun.
  etrans; [eapply apply_actions_sublist; [| |exact Hrun]|].
  - apply Forall_forall. intros fk Hfk. rewrite Forall_forall in Hfks. apply Hfks.
    unfold referencing in Hfk. by apply list_elem_of_filter in Hfk as [_ ?].
  - intros t1 v1 d1 d1'. by apply IH.
  - unfold without. destruct (decide (t = t')) as [->|Hne].
    + rewrite rows_set_rows_eq. apply sublist_filter.
    + by rewrite rows_set_rows_ne.
Qed.









(** *** Constraints on reviews *)

Lemma violations_nil t r others db :
  violations t r others db = [] →
  null_violations t r = [] ∧ check_violations t r = [] ∧
  unique_violations t r others = [].
Proof.
  unfold violations. intros H.
  apply app_nil in H as [_ H]. apply app_nil in H as [_ H].
  apply app_nil in H as [Hn H]. apply app_nil in H as [Hc H].
  by apply app_nil in H as [Hu _].
Qed.

Lemma not_null_respected t r c ty d :
  null_violations t r = [] → Column c ty NOT_NULL d ∈ columns t → col r c ≠ NULL.
Proof.
  unfold null_violations. intros H%fmap_nil_inv Hin E.
  by eapply (filter_nil_not_elem_of _ _ _ H); [|exact Hin].
Qed.

Lemma same_key_review (r o : row) :
  same_key ["book_id"; "user_id"] r o = true ↔
  col r "book_id" ≠ NULL ∧ col r "user_id" ≠ NULL ∧ review_pair r = review_pair o.
Proof.
  unfold same_key, review_pair. simpl.
  rewrite !andb_true_iff, !bool_decide_eq_true. split.
  - intros [[? E1] [[? E2] _]]. repeat split; [done..|congruence].
  - intros (? & ? & [= E1 E2]). repeat split; done.
Qed.

Lemma unique_respected t r others cols :
  unique_violations t r others = [] → cols ∈ unique_keys t →
  Forall (λ o, same_key cols r o = false) others.
Proof.
  unfold unique_violations. intros H%fmap_nil_inv Hin.
  apply Forall_forall. intros o Ho.
  destruct (same_key cols r o) eqn:E; [|done]. exfalso.
  eapply (filter_nil_not_elem_of _ _ _ H); [|exact Hin].
  apply existsb_exists. exists o. split; [by apply list_elem_of_In|done].
Qed.

Lemma accepted_review r others db :
  violations reviews r others db = [] →
  (col r "book_id" ≠ NULL ∧ col r "user_id" ≠ NULL) ∧
  review_pair r ∉ review_pair <$> others.
Proof.
  intros (Hn & _ & Hu)%violations_nil.
  assert (col r "book_id" ≠ NULL) as Hb.
  { eapply not_null_respected; [done|]. simpl. apply list_elem_of_here. }
  assert (col r "user_id" ≠ NULL) as Hus.
  { eapply not_null_respected; [done|]. simpl. apply list_elem_of_further, list_elem_of_here. }
  split; [done|].
  intros (o & Heq & Ho)%list_elem_of_fmap.
  pose proof (unique_respected reviews r others ["book_id"; "user_id"] Hu) as Hall.
  rewrite Forall_forall in Hall.
  assert (["book_id"; "user_id"] ∈ unique_keys reviews) as Hkey
    by (simpl; apply list_elem_of_further, list_elem_of_here).
  specialize (Hall Hkey o Ho).
  assert (same_key ["book_id"; "user_id"] r o = true) as Hk by by apply same_key_review.
  congruence.
Qed.

Lemma reviews_ok_snoc l r :
  reviews_ok l →
  (col r "book_id" ≠ NULL ∧ col r "user_id" ≠ NULL) →
  review_pair r ∉ review_pair <$> l →
  reviews_ok (l ++ [r]).
Proof.
  intros [Hnd Hall] Hr Hfresh. split.
  - rewrite fmap_app. apply NoDup_app. split; [done|]. split; [|apply NoDup_singleton].
    intros p Hp Hp'. apply list_elem_of_singleton in Hp'. by subst.
  - apply Forall_app. split; [done|]. by apply Forall_singleton.
Qed.

Lemma reviews_ok_sublist l l' : l' `sublist_of` l → reviews_ok l → reviews_ok l'.
Proof.
  intros Hsub [Hnd Hall]. split.
  - apply (sublist_NoDup _ (review_pair <$> l)); [exact Hnd|].
    by apply fmap_sublist.
  - apply Forall_forall. intros r Hr. rewrite Forall_forall in Hall.
    apply Hall. by eapply sublist_subseteq.
Qed.

Lemma insert_row_reviews_ok now t r db db' :
  insert_row now t r db = Committed db' →
  reviews_ok (rows reviews db) → reviews_ok (rows reviews db').
Proof.
  unfold insert_row. destruct (violations _ _ _ _) eqn:V; [|done].
  intros [= <-] Hok. destruct (decide (t = reviews)) as [->|Hne].
  - rewrite rows_set_rows_eq. apply accepted_review in V as [? ?].
    by apply reviews_ok_snoc.
  - by rewrite rows_set_rows_ne.
Qed.

Lemma update_rows_reviews_ok key assign db : ∀ after before rs,
  update_rows reviews key assign db before after = inl rs →
  reviews_ok (before ++ after) → reviews_ok rs.
Proof.
  induction after as [|r rest IH]; intros before rs; simpl.
  { intros [= <-]. by rewrite app_nil_r. }
  assert (∀ x, reviews_ok (before ++ x :: rest) → reviews_ok (before ++ rest)) as Hdrop.
  { intros x. apply reviews_ok_sublist. apply sublist_app; [done|]. by apply sublist_cons. }
  case_bool_decide.
  - destruct (_ ++ still_referenced _ _ _ _) eqn:V; [|done].
    apply app_nil in V as [V _]. apply accepted_review in V as [Hnn Hfresh].
    intros Hrun Hok. apply (IH _ _ Hrun). apply Hdrop in Hok.
    destruct (reviews_ok_snoc _ _ Hok Hnn Hfresh) as [Hnd Hall]. split.
    + assert (review_pair <$> (before ++ [assign ∪ r]) ++ rest
                ≡ₚ review_pair <$> (before ++ rest) ++ [assign ∪ r]) as ->; [|done].
      apply fmap_Permutation. rewrite <-!(assoc_L (++)). f_equiv. apply (comm (++)).
    + revert Hall. rewrite !Forall_app, !Forall_cons, Forall_nil. tauto.
  - intros Hrun Hok. apply (IH _ _ Hrun). by rewrite <-(assoc_L (++)).
Qed.

Lemma update_where_id_reviews_ok t key assign db db' :
  update_where_id t key assign db = Committed db' →
  reviews_ok (rows reviews db) → reviews_ok (rows reviews db').
Proof.
  unfold update_where_id. destruct (update_rows _ _ _ _ _ _) as [rs|] eqn:U; [|done].
  intros [= <-] Hok. destruct (decide (t = reviews)) as [->|Hne].
  - rewrite rows_set_rows_eq. by eapply update_rows_reviews_ok.
  - by rewrite rows_set_rows_ne.
Qed.

Lemma reviews_never_nulled :
  Forall (λ fk, fk_on_delete fk = SET_NULL → fk_table fk ≠ reviews) foreign_keys.
Proof. unfold foreign_keys. repeat constructor; simpl; congruence. Qed.

Lemma exec_reviews_ok now s db db' :
  exec now s db = Committed db' →
  reviews_ok (rows reviews db) → reviews_ok (rows reviews db').
Proof.
  destruct s as [t r|t key assign|t victim]; cbn [exec].
  - apply insert_row_reviews_ok.
  - apply update_where_id_reviews_ok.
  - destruct (delete_where t victim db) as [d|] eqn:D; [|done].
    intros [= <-]. apply reviews_ok_sublist.
    eapply delete_rows_sublist; [apply reviews_never_nulled|exact D].
Qed.

Lemma reachable_reviews_ok db : reachable db → reviews_ok (rows reviews db).
Proof.
  induction 1 as [|now s db db' _ IH Hexec].
  - split; [apply NoDup_nil_2|apply Forall_nil_2].
  - by eapply exec_reviews_ok.
Qed.

Lemma run_script_reachable script : ∀ now db db',
  run_script now script db = Some db' → reachable db → reachable db'.
Proof.
  induction script as [|s script IH]; intros now db db'; simpl.
  { by intros [= <-]. }
  destruct (exec now s db) as [d|] eqn:E; [|done].
  intros Hrun Hdb. apply (IH _ _ _ Hrun). by eapply reachable_exec.
Qed.



(** C6. In every state the database can reach there is at most one review
    per (book_id, user_id); a second review for a pair that has one is
    rejected for breaking the unique key, and the state stays as it was. *)
Theorem one_review_per_book_and_user (db : DB) :
  reachable db →
  (∀ i j (r1 r2 : row),
      rows reviews db !! i = Some r1 → rows reviews db !! j = Some r2 →
      col r1 "book_id" = col r2 "book_id" → col r1 "user_id" = col r2 "user_id" →
      i = j) ∧
  (∀ now (r old : row),
      old ∈ rows reviews db →
      col r "book_id" = col old "book_id" → col r "user_id" = col old "user_id" →
      ∃ broken,
        insert_row now reviews r db = Rejected broken ∧
        Unique reviews ["book_id"; "user_id"] ∈ broken ∧
        state_after db (insert_row now reviews r db) = db).
Proof.
  intros [Hnd Hall]%reachable_reviews_ok. split.
  - intros i j r1 r2 Hi Hj Hb Hu.
    eapply (NoDup_lookup _ i j (review_pair r1)); [exact Hnd|..].
    + by rewrite list_lookup_fmap, Hi.
    + rewrite list_lookup_fmap, Hj. unfold review_pair. simpl. by rewrite Hb, Hu.
  - intros now r old Hold Hb Hu.
    rewrite Forall_forall in Hall. destruct (Hall old Hold) as [Hnb Hnu].
    assert (Unique reviews ["book_id"; "user_id"]
              ∈ violations reviews (with_defaults now reviews r) (rows reviews db) db)
      as Hin.
    { unfold violations. rewrite !elem_of_app. do 4 right. left.
      unfold unique_violations. apply list_elem_of_fmap_2, list_elem_of_filter.
      split; [|simpl; apply list_elem_of_further, list_elem_of_here].
      apply existsb_exists. exists old. split; [by apply list_elem_of_In|].
      apply same_key_review. unfold review_pair.
      rewrite !col_with_defaults by (apply (bool_decide_unpack _); vm_compute; exact I).
      rewrite Hb, Hu. done. }
    unfold insert_row.
    destruct (violations _ _ _ _) as [|v vs] eqn:V; [by apply elem_of_nil in Hin|].
    exists (v :: vs). done.
Qed.

Lemma one_review_per_book_and_user_witness :
  ∃ broken,
    insert_row 8 reviews (review 51 4) reviewed_market = Rejected broken ∧
    Unique reviews ["book_id"; "user_id"] ∈ broken ∧
    state_after reviewed_market (insert_row 8 reviews (review 51 4) reviewed_market)
      = reviewed_market.
Proof.
  assert (reachable reviewed_market) as Hreach.
  { apply (run_script_reachable (market_script ++ [INSERT reviews (review 50 5)])
             1%Z empty_db); [vm_compute; reflexivity|apply reachable_empty]. }
  apply (proj2 (one_review_per_book_and_user reviewed_market Hreach)
           8%Z (review 51 4) (with_defaults 7 reviews (review 50 5))).
  - apply (bool_decide_unpack _). vm_compute. exact I.
  - vm_compute. reflexivity.
  - vm_compute. reflexivity.
Defined.

(** C7. A review whose rating lies outside 1..5 is rejected by the row
    check ck_review_rating_range of the table itself; a review whose
    rating lies inside 1..5 and that breaks no other rule is stored. *)
Theorem rating_range_enforced (now : Z) (db : DB) (r : row) (rating : Z) :
  let r' : row := <["rating" := Int rating]> r in
  (¬ (1 ≤ rating ≤ 5)%Z →
     ∃ broken, insert_row now reviews r' db = Rejected broken ∧
               CheckFailed "ck_review_rating_range" ∈ broken) ∧
  ((1 ≤ rating ≤ 5)%Z →
     (∀ v, v ∈ violations reviews (with_defaults now reviews r') (rows reviews db) db →
           v = CheckFailed "ck_review_rating_range") →
     ∃ db', insert_row now reviews r' db = Committed db' ∧
            rows reviews db' = rows reviews db ++ [with_defaults now reviews r']).
Proof.
  intros r'.
  assert (col (with_defaults now reviews r') "rating" = Int rating) as Hrating.
  { unfold col. erewrite with_defaults_keeps; [done|]. apply lookup_insert_eq. }
  assert (check_violations reviews (with_defaults now reviews r') =
            if (1 <=? rating)%Z && (rating <=? 5)%Z then []
            else [CheckFailed "ck_review_rating_range"]) as Hck.
  { assert (ck_review_rating_range (with_defaults now reviews r') =
              Some ((1 <=? rating)%Z && (rating <=? 5)%Z)) as Hval.
    { unfold ck_review_rating_range. by rewrite Hrating. }
    unfold check_violations. simpl. rewrite filter_cons, filter_nil.
    case_decide as D; simpl in D; rewrite Hval in D;
      destruct ((1 <=? rating)%Z && (rating <=? 5)%Z); done. }
  split.
  - intros Hout.
    assert (CheckFailed "ck_review_rating_range"
              ∈ violations reviews (with_defaults now reviews r') (rows reviews db) db)
      as Hin.
    { unfold violations. rewrite !elem_of_app. do 3 right. left. rewrite Hck.
      destruct ((1 <=? rating)%Z && (rating <=? 5)%Z) eqn:E; [|apply list_elem_of_here].
      apply andb_true_iff in E as [?%Z.leb_le ?%Z.leb_le]. lia. }
    unfold insert_row. fold r'.
    destruct (violations _ _ _ _) as [|v vs] eqn:V; [by apply elem_of_nil in Hin|].
    by exists (v :: vs).
  - intros Hin Hothers.
    replace ((1 <=? rating)%Z && (rating <=? 5)%Z) with true in Hck
      by (symmetry; apply andb_true_iff; split; apply Z.leb_le; lia).
    unfold insert_row. fold r'.
    destruct (violations _ _ _ _) as [|v vs] eqn:V.
    + eexists. split; [done|]. by rewrite rows_set_rows_eq.
    + exfalso. pose proof (Hothers v (list_elem_of_here _ _)) as ->.
      assert (CheckFailed "ck_review_rating_range"
                ∈ violations reviews (with_defaults now reviews r') (rows reviews db) db)
        as Hv by (rewrite V; apply list_elem_of_here).
      unfold violations in Hv. rewrite Hck in Hv.
      unfold unknown_columns, type_mismatches, null_violations, unique_violations,
        fk_violations in Hv.
      rewrite !elem_of_app, !list_elem_of_fmap in Hv.
      destruct Hv as [(? & ? & _)|[(? & ? & _)|[(? & ? & _)|[Hv|[(? & ? & _)|(? & ? & _)]]]]];
        try discriminate.
      by apply elem_of_nil in Hv.
Qed.

Lemma rating_range_enforced_witness :
  (∃ broken, insert_row 7 reviews (<["rating" := Int 6]> (review 50 0)) market
               = Rejected broken ∧
             CheckFailed "ck_review_rating_range" ∈ broken) ∧
  (∃ db', insert_row 7 reviews (<["rating" := Int 5]> (review 50 0)) market
            = Committed db' ∧
          rows reviews db' =
            rows reviews market
              ++ [with_defaults 7 reviews (<["rating" := Int 5]> (review 50 0))]).
Proof.
  split.
  - apply (proj1 (rating_range_enforced 7 market (review 50 0) 6)). lia.
  - apply (proj2 (rating_range_enforced 7 market (review 50 0) 5)); [lia|].
    intros v Hv. vm_compute in Hv. by apply elem_of_nil in Hv.
Defined.

End SchemaFacts.

(** ** The handlers *)

Section HandlerFacts.
Import Js.

(** *** The driver operations *)

Lemma matches_email (e : value) (d : object) :
  matches {[ "email" := e ]} d = true ↔ field d "email" = bson e.
Proof.
  unfold matches. by rewrite bool_decide_eq_true, map_Forall_singleton.
Qed.

(** *** protect *)

Lemma invoke_mongodb_findOne ops q c :
  invoke {| method := mongodb_methods; result_has_ops := ops |} "findOne" q ∅ c
  = findOne q c.
Proof. reflexivity. Qed.

Lemma protect_outcome
    (jwt_verify : option string → option string → completion object)
    (new_ObjectId : value → completion N) (env : environment)
    (getDB : completion db_handle) (req : request) (c : collection) :
  (∀ db, getDB = Return db → method (db "users") = mongodb_methods) →
  ∃ res x,
    protect jwt_verify new_ObjectId env getDB req (fresh_exchange, c) = (res, (x, c)) ∧
    (0 < next_calls x →
       ∃ h payload id (d : object),
         headers req !! "authoriztion" = Some h ∧
         jwt_verify (split space h !! 1) (env !! "JWT_SECRET") = Return payload ∧
         new_ObjectId (prop payload "id") = Return id ∧
         d ∈ docs c ∧ field d "_id" = oid id ∧
         req_user x = Some (Looked_up (Found (Some d)))) ∧
    (next_calls x = 0 →
       (∃ b, sent x = [ {| status := 401; body := b |} ]) ∧
       ∀ p, req_user x = Some p → principal_truthy p = false).
Proof.
  intros Hdrv. unfold protect.
  destruct (headers req !! "authoriztion") as [h|] eqn:Hh; simpl;
    [|eexists _, _; split; [done|]; simpl; split; [lia|]; intros _; split; [eauto|done]].
  destruct (negb (String.eqb h "") && startsWith "Bearer" h) eqn:Hg; simpl;
    [|eexists _, _; split; [done|]; simpl; split; [lia|]; intros _; split; [eauto|done]].
  unfold mbind, eff_bind, try_catch, lift. simpl.
  destruct (jwt_verify (split space h !! 1) (env !! "JWT_SECRET")) as [payload|e] eqn:Hv; simpl.
  2:{ destruct (negb (truthy_str (split space h !! 1)));
        eexists _, _; (split; [done|]); simpl; (split; [lia|]); intros _; split; eauto; done. }
  destruct getDB as [db|e] eqn:Hdb; simpl.
  2:{ destruct (negb (truthy_str (split space h !! 1)));
        eexists _, _; (split; [done|]); simpl; (split; [lia|]); intros _; split; eauto; done. }
  destruct (new_ObjectId (prop payload "id")) as [id|e] eqn:Hid; simpl.
  2:{ destruct (negb (truthy_str (split space h !! 1)));
        eexists _, _; (split; [done|]); simpl; (split; [lia|]); intros _; split; eauto; done. }
  unfold invoke. rewrite (Hdrv db eq_refl). simpl.
  destruct (list_find _ (docs c)) as [[i d]|] eqn:F; simpl.
  2:{ eexists _, _; (split; [done|]); simpl; (split; [lia|]); intros _; split; eauto.
      by intros p [= <-]. }
  apply list_find_Some in F as (Hi & Hm & _).
  assert (field d "_id" = oid id) as Hfield.
  { unfold matches in Hm. apply bool_decide_eq_true in Hm.
    by rewrite map_Forall_singleton in Hm. }
  clear Hm. pose proof (list_elem_of_lookup_2 _ _ _ Hi) as Hd.
  destruct (negb (truthy_str (split space h !! 1)));
    eexists _, _; (split; [reflexivity|]); simpl; (split; [|lia]); intros _;
    exists h, payload, id, d;
    (split; [reflexivity|]); (split; [exact Hv|]); (split; [exact Hid|]);
    (split; [exact Hd|]); (split; [exact Hfield|reflexivity]).
Qed.

(** C10. [protect] lets a request through only if the users collection
    holds a document whose _id is the id decoded from the verified token,
    and then attaches that document; when there is no such document the
    request is answered with 401, [next] is not called and [req.user] holds
    no user. *)
Theorem protect_requires_existing_user
    (jwt_verify : option string → option string → completion object)
    (new_ObjectId : value → completion N) (env : environment)
    (getDB : completion db_handle) (req : request) (c : collection) :
  (∀ db, getDB = Return db → method (db "users") = mongodb_methods) →
  ∃ res x,
    protect jwt_verify new_ObjectId env getDB req (fresh_exchange, c) = (res, (x, c)) ∧
    (0 < next_calls x →
       ∃ d, token_user jwt_verify new_ObjectId env req c d ∧
            req_user x = Some (Looked_up (Found (Some d)))) ∧
    ((∀ d, ¬ token_user jwt_verify new_ObjectId env req c d) →
       next_calls x = 0 ∧
       (∃ b, sent x = [ {| status := 401; body := b |} ]) ∧
       ∀ p, req_user x = Some p → principal_truthy p = false).
Proof.
  intros Hdrv.
  destruct (protect_outcome jwt_verify new_ObjectId env getDB req c Hdrv)
    as (res & x & Hrun & Hnext & Hrej).
  exists res, x. split; [done|]. split.
  - intros (h & payload & id & d & ? & ? & ? & ? & ? & ?)%Hnext.
    exists d. split; [|done]. by exists h, payload, id.
  - intros Hnone.
    assert (next_calls x = 0) as Hz.
    { destruct (next_calls x) eqn:E; [done|]. exfalso.
      destruct Hnext as (h & payload & id & d & ? & ? & ? & ? & ? & ?); [lia|].
      apply (Hnone d). by exists h, payload, id. }
    split; [done|]. by apply Hrej.
Qed.

End HandlerFacts.

Section UpsertProperties.
Import Js.

(** *** The upsert *)

(** With the collection object of the driver the lookup itself fails, and
    nothing is stored. *)
Lemma syncUser_findone_is_not_a_function now body c ops :
  truthy (prop body "email") = true →
  syncUser (Return {| method := mongodb_methods; result_has_ops := ops |}) now body c
    = (c, Finished (Throw (TypeError "findone is not a function")) []).
Proof. intros He. unfold syncUser. cbn [step]. unfold syncUser_lookup. by rewrite He. Qed.

Lemma syncUser_lookup_driver ops body c :
  truthy (prop body "email") = true →
  syncUser_lookup (Return {| method := mongodb_methods; result_has_ops := ops |}) body c
    = (c, Finished (Throw (TypeError "findone is not a function")) []).
Proof. intros He. unfold syncUser_lookup, invoke. by rewrite He. Qed.

Lemma run_race_snoc users nowA nowB bodyA bodyB c schedule t :
  run_race users nowA nowB bodyA bodyB c (schedule ++ [t]) =
    advance users nowA nowB (run_race users nowA nowB bodyA bodyB c schedule) t.
Proof. unfold run_race. by rewrite foldl_app. Qed.

(** C1, as the code behaves.  [db.collection("users")] is a Collection of
    the MongoDB driver, which has no method [findone]: under every
    interleaving of two concurrent calls with the same email, each call
    that has run has thrown the TypeError of line 13, no response was
    sent, and the collection is as it was; so a collection that held no
    user with the email holds none afterwards, not one. *)
Theorem concurrent_syncUser_stores_nothing (ops : bool) (nowA nowB : Z)
    (bodyA bodyB : object) (c : collection) (schedule : list turn) :
  truthy (prop bodyA "email") = true →
  prop bodyB "email" = prop bodyA "email" →
  let users := Return {| method := mongodb_methods; result_has_ops := ops |} in
  let r := run_race users nowA nowB bodyA bodyB c schedule in
  shared r = c ∧
  count_email (prop bodyA "email") (shared r) = count_email (prop bodyA "email") c ∧
  (FirstCall ∈ schedule →
     call_A r = Finished (Throw (TypeError "findone is not a function")) []) ∧
  (SecondCall ∈ schedule →
     call_B r = Finished (Throw (TypeError "findone is not a function")) []) ∧
  (FirstCall ∉ schedule → call_A r = Lookup bodyA) ∧
  (SecondCall ∉ schedule → call_B r = Lookup bodyB).
Proof.
  intros HeA Hsame users r.
  assert (truthy (prop bodyB "email") = true) as HeB by by rewrite Hsame.
  set (thrown := Finished (Throw (TypeError "findone is not a function")) []).
  assert (shared r = c ∧
    ((FirstCall ∈ schedule ∧ call_A r = thrown) ∨
     ((FirstCall ∉ schedule) ∧ call_A r = Lookup bodyA)) ∧
    ((SecondCall ∈ schedule ∧ call_B r = thrown) ∨
     ((SecondCall ∉ schedule) ∧ call_B r = Lookup bodyB))) as (Hc & HA & HB).
  { unfold r. clear r. induction schedule as [|t schedule IH] using rev_ind.
    { split; [done|]. split; right; (split; [by intros ?%elem_of_nil|done]). }
    destruct IH as (Hc & HA & HB). rewrite run_race_snoc.
    set (r := run_race users nowA nowB bodyA bodyB c schedule) in *.
    assert (∀ t' : turn, t' ∈ schedule → t' ∈ schedule ++ [t]) as Hkeep.
    { intros t' ?. apply elem_of_app. by left. }
    destruct t; unfold advance.
    - assert (step users nowA (shared r) (call_A r) = (c, thrown)) as ->.
      { rewrite Hc. destruct HA as [[_ ->]|[_ ->]]; [done|].
        cbn [step]. by apply syncUser_lookup_driver. }
      cbn [shared call_A call_B]. split; [done|]. split.
      { left. split; [|done]. apply elem_of_app. right. apply list_elem_of_here. }
      destruct HB as [[Hin ?]|[Hout ?]]; [left|right]; (split; [|done]); [by apply Hkeep|].
      by intros [?|[=]%list_elem_of_singleton]%elem_of_app.
    - assert (step users nowB (shared r) (call_B r) = (c, thrown)) as ->.
      { rewrite Hc. destruct HB as [[_ ->]|[_ ->]]; [done|].
        cbn [step]. by apply syncUser_lookup_driver. }
      cbn [shared call_A call_B]. split; [done|]. split.
      2:{ left. split; [|done]. apply elem_of_app. right. apply list_elem_of_here. }
      destruct HA as [[Hin ?]|[Hout ?]]; [left|right]; (split; [|done]); [by apply Hkeep|].
      by intros [?|[=]%list_elem_of_singleton]%elem_of_app. }
  rewrite Hc. repeat split; try done.
  - intros Hin. by destruct HA as [[_ ?]|[? _]].
  - intros Hin. by destruct HB as [[_ ?]|[? _]].
  - intros Hout. by destruct HA as [[? _]|[_ ?]].
  - intros Hout. by destruct HB as [[? _]|[_ ?]].
Qed.

Lemma concurrent_syncUser_stores_nothing_witness :
  count_email (str "ann@x.com")
    (shared (run_race (Return mongodb_collection) 5 6 ann_body ann_body no_users
               [FirstCall; SecondCall; SecondCall; FirstCall])) = 0 ∧
  call_A (run_race (Return mongodb_collection) 5 6 ann_body ann_body no_users
            [FirstCall; SecondCall; SecondCall; FirstCall])
    = Finished (Throw (TypeError "findone is not a function")) [] ∧
  call_B (run_race (Return mongodb_collection) 5 6 ann_body ann_body no_users
            [FirstCall; SecondCall; SecondCall; FirstCall])
    = Finished (Throw (TypeError "findone is not a function")) [].
Proof.
  destruct (concurrent_syncUser_stores_nothing true 5 6 ann_body ann_body no_users
              [FirstCall; SecondCall; SecondCall; FirstCall] eq_refl eq_refl)
    as (_ & Hcount & HA & HB & _).
  split; [exact Hcount|]. split.
  - apply HA. apply list_elem_of_here.
  - apply HB. apply list_elem_of_further, list_elem_of_here.
Defined.

(** C3, as the code behaves.  A call of syncUser with an email, on the
    driver's collection, throws the TypeError of calling findone before
    it writes: no user is inserted for an email the collection lacks,
    and a stored user with the email keeps the name and image it had. *)
Theorem syncUser_neither_inserts_nor_updates (ops : bool) (now : Z) (body : object)
    (c : collection) :
  truthy (prop body "email") = true →
  let users := Return {| method := mongodb_methods; result_has_ops := ops |} in
  (syncUser users now body c).2
    = Finished (Throw (TypeError "findone is not a function")) [] ∧
  docs (syncUser users now body c).1 = docs c ∧
  ((∀ d, d ∈ docs c → field d "email" ≠ bson (prop body "email")) →
     ∀ d, d ∈ docs (syncUser users now body c).1 →
          field d "email" ≠ bson (prop body "email")) ∧
  (∀ i (old : object),
     docs c !! i = Some old → field old "email" = bson (prop body "email") →
     ∃ d : object, docs (syncUser users now body c).1 !! i = Some d ∧
                   field d "name" = field old "name" ∧
                   field d "image" = field old "image").
Proof.
  intros He users. unfold users.
  rewrite syncUser_findone_is_not_a_function by done. cbn [fst snd].
  repeat split; [done|]. intros i old Hi _. by exists old.
Qed.

Lemma syncUser_neither_inserts_nor_updates_witness :
  (syncUser (Return mongodb_collection) 5 ann_renamed_body one_user).2
    = Finished (Throw (TypeError "findone is not a function")) [] ∧
  docs (syncUser (Return mongodb_collection) 5 ann_renamed_body one_user).1 = [ann_doc] ∧
  field ann_doc "email" = bson (prop ann_renamed_body "email") ∧
  field ann_doc "name" ≠ bson (prop ann_renamed_body "name") ∧
  docs (syncUser (Return mongodb_collection) 5 ann_body no_users).1 = [].
Proof.
  destruct (syncUser_neither_inserts_nor_updates true 5 ann_renamed_body one_user eq_refl)
    as (Hthrows & Hdocs & _).
  destruct (syncUser_neither_inserts_nor_updates true 5 ann_body no_users eq_refl)
    as (_ & Hnone & _).
  split; [exact Hthrows|]. split; [exact Hdocs|]. split; [reflexivity|].
  split; [discriminate|exact Hnone].
Defined.

End UpsertProperties.

Section SessionProperties.
Import Js.

(** *** getDB *)

(** C9, as the code has it. [getDB] tries to connect once. Whatever goes
    wrong inside it is printed with console.error and the promise is
    fulfilled with undefined: it never rejects, and it does not try again. *)
Theorem getDB_connects_once_and_swallows (env : environment) (m : db_module) :
  ∃ r m',
    getDB env m = (Return r, m') ∧
    connects m' ≤ S (connects m) ∧
    (∀ client e rest,
        new_MongoClient (env !! "MONGODB_URI") = Return client →
        network m = Some e :: rest →
        r = None ∧ connects m' = S (connects m) ∧
        console m' = console m ++ [e] ∧ network m' = rest) ∧
    (∀ e, new_MongoClient (env !! "MONGODB_URI") = Throw e →
        r = None ∧ connects m' = connects m ∧ console m' = console m ++ [e]) ∧
    (∀ client,
        new_MongoClient (env !! "MONGODB_URI") = Return client →
        (∀ e rest, network m ≠ Some e :: rest) →
        r = Some {| db_client := client |} ∧ console m' = console m).
Proof.
  unfold getDB, try_catch, mbind, eff_bind, lift, mret, eff_ret, set_client, set_db,
    console_error, modify, connect.
  destruct (new_MongoClient (env !! "MONGODB_URI")) as [client|e0]; simpl.
  - destruct (network m) as [|[e|] rest] eqn:Hn; simpl.
    + eexists _, _. split; [reflexivity|]. simpl. split; [lia|].
      split; [by intros|]. split; [by intros|]. by intros ? [= <-] _.
    + eexists _, _. split; [reflexivity|]. simpl. split; [lia|].
      split; [by intros ? ? ? [= <-] [= <- <-]|]. split; [by intros|].
      intros ? _ Hne. by destruct (Hne e rest).
    + eexists _, _. split; [reflexivity|]. simpl. split; [lia|].
      split; [by intros|]. split; [by intros|]. by intros ? [= <-] _.
  - eexists _, _. split; [reflexivity|]. simpl. split; [lia|].
    split; [by intros|]. split; [by intros ? [= <-]|]. by intros.
Qed.

Lemma getDB_connects_once_and_swallows_witness :
  ∃ r m',
    getDB toy_env refused_once = (Return r, m') ∧
    r = None ∧ connects m' = 1 ∧
    console m' = [MongoNetworkError "ECONNREFUSED"] ∧ network m' = [None].
Proof.
  destruct (getDB_connects_once_and_swallows toy_env refused_once)
    as (r & m' & Hrun & _ & Hfail & _).
  exists r, m'. split; [exact Hrun|].
  apply (Hfail {| client_uri := "mongodb://localhost/Books4All" |}
           (MongoNetworkError "ECONNREFUSED") [None]); reflexivity.
Defined.

(** The first attempt is refused, a second one would go through: [getDB]
    makes the first only, and settles to undefined. *)
Lemma getDB_swallows_refused_connection :
  getDB toy_env refused_once =
    (Return None,
     {| var_client := Some {| client_uri := "mongodb://localhost/Books4All" |};
        var_db := None;
        console := [MongoNetworkError "ECONNREFUSED"];
        network := [None];
        connects := 1 |}).
Proof. reflexivity. Qed.

(** *** authorize *)

(** C2, what the code does. [authorize] never returns a user: once the
    database is connected, reading the unbound name [credentials] throws.
    In particular it throws for Ann, whose stored hash matches the
    password she sends. *)
Theorem authorize_never_returns :
  (∀ connectDB User_findOne bcrypt_compare credentails,
      ∃ e, authorize connectDB User_findOne bcrypt_compare credentails = Throw e) ∧
  toy_findOne one_user {[ "email" := prop ann_credentials "email" ]}
    = Return (Some ann_doc) ∧
  toy_compare (prop ann_credentials "password") (prop ann_doc "password") = Return true ∧
  authorize (Return ()) (toy_findOne one_user) toy_compare ann_credentials
    = Throw (ReferenceError "credentials").
Proof.
  split.
  - intros connectDB User_findOne bcrypt_compare credentails. unfold authorize.
    destruct connectDB as [[]|e]; simpl; eauto.
  - split; [vm_compute; reflexivity|]. split; reflexivity.
Qed.

(** *** The header the middlewares read *)

(** C4, what the code does. A request with a forged token in its
    Authorization header is answered "No token" by both middlewares, as
    if it carried none, because they read the header [authoriztion]; and
    when that header holds the scheme alone, [protect] answers "token
    failed" and then tries to answer "no token" as well. *)
Theorem misspelt_header_reports_missing_token :
  toy_verify (Some "forged") (JWT_SECRET toy_env)
    = Throw (JsonWebTokenError "invalid signature") ∧
  authMiddleware toy_verify toy_env forged_request (fresh_exchange, ())
    = (Return (),
       ({| req_user := None;
           sent := [ {| status := 401; body := [("error", JString "No token")] |} ];
           next_calls := 0; logged := [] |}, ())) ∧
  protect toy_verify toy_ObjectId toy_env driver_handle forged_request
      (fresh_exchange, one_user)
    = (Return (),
       ({| req_user := None;
           sent := [ {| status := 401;
                        body := [("message", JString "Not authorized, no token")] |} ];
           next_calls := 0; logged := [] |}, one_user)) ∧
  protect toy_verify toy_ObjectId toy_env driver_handle bare_bearer_request
      (fresh_exchange, one_user)
    = (Throw ERR_HTTP_HEADERS_SENT,
       ({| req_user := None;
           sent := [ {| status := 401;
                        body := [("message", JString "Not authorized , token failed")] |} ];
           next_calls := 0;
           logged := [JsonWebTokenError "jwt must be provided"] |}, one_user)).
Proof. repeat split; vm_compute; reflexivity. Qed.

(** Read against the header they do read, the two answers of
    [authMiddleware] are told apart as they should be. *)
Lemma authMiddleware_answers jwt_verify env req :
  let token := or_else (h ← headers req !! "authoriztion"; split space h !! 1)
                       (cookies req !! "next-auth.session-token") in
  ∃ x, authMiddleware jwt_verify env req (fresh_exchange, ()) = (Return (), (x, ())) ∧
    match truthy_str token, jwt_verify token (JWT_SECRET env) with
    | false, _ =>
        sent x = [ {| status := 401; body := [("error", JString "No token")] |} ] ∧
        next_calls x = 0
    | true, Throw _ =>
        sent x = [ {| status := 403; body := [("error", JString "Invalid token")] |} ] ∧
        next_calls x = 0
    | true, Return decoded =>
        sent x = [] ∧ next_calls x = 1 ∧ req_user x = Some (Decoded decoded)
    end.
Proof.
  intros token. unfold authMiddleware. fold token.
  destruct (truthy_str token); simpl; [|by eexists].
  unfold try_catch, mbind, eff_bind, lift.
  destruct (jwt_verify token (JWT_SECRET env)); simpl; by eexists.
Qed.

(** *** Tokens and sessions *)



(** *** protect, on a request *)

(** As the module is written, [getDB] is unbound and [protect] lets no
    request through. *)
Lemma protect_as_written_never_calls_next
    (jwt_verify : option string → option string → completion object)
    (new_ObjectId : value → completion N) (env : environment)
    (getDb : completion db_handle) (req : request) (c : collection) :
  getDB_as_written getDb = Throw (ReferenceError "getDB") ∧
  ∃ res x,
    protect jwt_verify new_ObjectId env (getDB_as_written getDb) req (fresh_exchange, c)
      = (res, (x, c)) ∧
    next_calls x = 0.
Proof.
  split; [reflexivity|].
  change (getDB_as_written getDb) with (@Throw db_handle (ReferenceError "getDB")).
  unfold protect.
  destruct (headers req !! "authoriztion") as [h|]; simpl; [|by eexists _, _].
  destruct (negb (String.eqb h "") && startsWith "Bearer" h); simpl; [|by eexists _, _].
  unfold mbind, eff_bind, try_catch, lift. simpl.
  destruct (jwt_verify (split space h !! 1) (env !! "JWT_SECRET")); simpl;
    destruct (negb (truthy_str (split space h !! 1))); by eexists _, _.
Qed.


Lemma protect_requires_existing_user_witness :
  ∃ res x,
    protect toy_verify toy_ObjectId toy_env driver_handle good_request
      (fresh_exchange, one_user) = (res, (x, one_user)) ∧
    next_calls x = 1 ∧
    ∃ d, token_user toy_verify toy_ObjectId toy_env good_request one_user d ∧
         req_user x = Some (Looked_up (Found (Some d))).
Proof.
  destruct (protect_requires_existing_user toy_verify toy_ObjectId toy_env driver_handle
              good_request one_user) as (res & x & Hrun & Hnext & _).
  { intros db [= <-]. reflexivity. }
  exists res, x. split; [exact Hrun|].
  pose proof (f_equal (λ r, next_calls r.2.1) Hrun) as Hn. vm_compute in Hn.
  change (1 = next_calls x) in Hn.
  split; [symmetry; exact Hn|]. apply Hnext. rewrite <-Hn. lia.
Defined.

End SessionProperties.

(* ===================================================================== *)
(** * Part IV: further properties of the schema and the handlers           *)
(* ===================================================================== *)

Section MoreSchemaFacts.
Import Sql.

Lemma same_key_sym cols (r o : row) : same_key cols r o = same_key cols o r.
Proof.
  unfold same_key. induction cols as [|c cols IH]; simpl; [done|].
  rewrite IH. f_equal. apply bool_decide_ext. split.
  - intros [Hn E]. split; [by rewrite <-E|done].
  - intros [Hn E]. split; [by rewrite <-E|done].
Qed.

Lemma same_key_nullify cols c keys c' keys' (r o : row) :
  same_key cols (nullify c keys r) (nullify c' keys' o) = true →
  same_key cols r o = true.
Proof.
  unfold same_key. rewrite !forallb_forall. intros H x Hx.
  specialize (H x Hx). apply bool_decide_eq_true in H as [Hn E].
  apply bool_decide_eq_true.
  destruct (col_nullify c keys r x) as [E1|E1]; [|congruence].
  destruct (col_nullify c' keys' o x) as [E2|E2]; [|congruence].
  split; congruence.
Qed.

Lemma no_clash_app cols l1 l2 :
  no_clash cols (l1 ++ l2) ↔
  no_clash cols l1 ∧ no_clash cols l2 ∧
  Forall (λ x, Forall (λ y, same_key cols x y = false) l2) l1.
Proof.
  induction l1 as [|r l1 IH]; simpl.
  - split; [by intros; repeat split|by intros (_ & ? & _)].
  - rewrite IH, Forall_app, Forall_cons. tauto.
Qed.

Lemma no_clash_sublist cols l l' : l' `sublist_of` l → no_clash cols l → no_clash cols l'.
Proof.
  induction 1 as [|x l1 l2 Hsub IH|x l1 l2 Hsub IH]; simpl; [done| |tauto].
  intros [Hx Hl]. split; [|by apply IH].
  apply Forall_forall. intros o Ho. rewrite Forall_forall in Hx. apply Hx.
  by eapply sublist_subseteq.
Qed.

Lemma no_clash_nullify cols c keys l :
  no_clash cols l → no_clash cols (nullify c keys <$> l).
Proof.
  induction l as [|r l IH]; simpl; [done|]. intros [Hr Hl]. split; [|by apply IH].
  apply Forall_fmap, Forall_forall. intros o Ho. simpl.
  rewrite Forall_forall in Hr. specialize (Hr o Ho).
  destruct (same_key cols (nullify c keys r) (nullify c keys o)) eqn:E; [|done].
  apply same_key_nullify in E. congruence.
Qed.

Lemma no_clash_lookup cols l i j (r1 r2 : row) :
  no_clash cols l → l !! i = Some r1 → l !! j = Some r2 →
  same_key cols r1 r2 = true → i = j.
Proof.
  revert i j. induction l as [|r l IH]; intros i j; simpl; [done|].
  intros [Hr Hl] Hi Hj Hk. destruct i as [|i], j as [|j]; simpl in *.
  - done.
  - injection Hi as ->. rewrite Forall_forall in Hr.
    rewrite (Hr r2) in Hk; [done|]. by eapply list_elem_of_lookup_2.
  - injection Hj as ->. rewrite Forall_forall in Hr.
    rewrite same_key_sym, (Hr r1) in Hk; [done|]. by eapply list_elem_of_lookup_2.
  - f_equal. by eapply IH.
Qed.

(** A property of the rows of one table that survives both the removal of
    rows and the nulling of the references that table declares
    [ON DELETE SET NULL] survives every cascade. *)
Lemma apply_actions_keeps (Q : list row → Prop) t' delete keys fks : ∀ d d',
  (∀ fk, fk ∈ fks → fk_table fk = t' → fk_on_delete fk = SET_NULL →
         ∀ keys l, Q l → Q (nullify (fk_column fk) keys <$> l)) →
  (∀ t victim d d', delete t victim d = Some d' → Q (rows t' d) → Q (rows t' d')) →
  apply_actions delete keys fks d = Some d' →
  Q (rows t' d) → Q (rows t' d').
Proof.
  induction fks as [|fk fks IH]; intros d d' HQ Hdel.
  { by intros [= <-]. }
  intros (d1 & Hact & Hrun)%apply_actions_cons_Some Hd.
  eapply IH; [|exact Hdel|exact Hrun|].
  { intros fk' Hin. apply HQ. by right. }
  unfold referential_action in Hact. destruct (fk_on_delete fk) eqn:Hon.
  - by eapply Hdel.
  - injection Hact as <-. destruct (decide (fk_table fk = t')) as [E|Hne].
    + rewrite E, rows_set_rows_eq. apply HQ; [apply list_elem_of_here|done..].
    + by rewrite rows_set_rows_ne.
Qed.

Lemma delete_rows_keeps (Q : list row → Prop) t' fuel : ∀ t victim db db',
  (∀ (P : row → Prop) `{∀ r, Decision (P r)} l, Q l → Q (filter P l)) →
  (∀ fk, fk ∈ foreign_keys → fk_table fk = t' → fk_on_delete fk = SET_NULL →
         ∀ keys l, Q l → Q (nullify (fk_column fk) keys <$> l)) →
  delete_rows fuel t victim db = Some db' →
  Q (rows t' db) → Q (rows t' db').
Proof.
  induction fuel as [|fuel IH]; intros t victim db db' Hfilter Hnull; [done|].
  rewrite delete_rows_S. intros Hrun Hdb.
  eapply apply_actions_keeps; [| |exact Hrun|].
  - intros fk Hfk. apply Hnull.
    unfold referencing in Hfk. by apply list_elem_of_filter in Hfk as [_ ?].
  - intros t1 v1 d1 d1'. by apply IH.
  - unfold without. destruct (decide (t = t')) as [->|Hne].
    + rewrite rows_set_rows_eq. by apply Hfilter.
    + by rewrite rows_set_rows_ne.
Qed.

Lemma delete_where_no_clash cols t' t victim db db' :
  delete_where t victim db = Some db' →
  no_clash cols (rows t' db) → no_clash cols (rows t' db').
Proof.
  apply (delete_rows_keeps (no_clash cols)).
  - intros P ? l. apply no_clash_sublist, sublist_filter.
  - intros fk _ _ _ keys l. apply no_clash_nullify.
Qed.

Lemma accepted_no_clash t r others db cols :
  violations t r others db = [] → cols ∈ unique_keys t →
  Forall (λ o, same_key cols r o = false) others.
Proof. intros (_ & _ & Hu)%violations_nil. by apply unique_respected. Qed.

Lemma no_clash_snoc cols l r :
  no_clash cols l → Forall (λ o, same_key cols r o = false) l → no_clash cols (l ++ [r]).
Proof.
  intros Hl Hr. apply no_clash_app. split; [done|]. split; [by simpl|].
  apply Forall_forall. intros x Hx. apply Forall_singleton.
  rewrite same_key_sym. rewrite Forall_forall in Hr. by apply Hr.
Qed.

Lemma insert_row_no_clash now t r db db' t' cols :
  insert_row now t r db = Committed db' → cols ∈ unique_keys t' →
  no_clash cols (rows t' db) → no_clash cols (rows t' db').
Proof.
  unfold insert_row. destruct (violations _ _ _ _) eqn:V; [|done].
  intros [= <-] Hcols Hok. destruct (decide (t = t')) as [->|Hne].
  - rewrite rows_set_rows_eq. apply no_clash_snoc; [done|].
    by eapply accepted_no_clash.
  - by rewrite rows_set_rows_ne.
Qed.

Lemma update_rows_no_clash t key assign db cols : ∀ after before rs,
  cols ∈ unique_keys t →
  update_rows t key assign db before after = inl rs →
  no_clash cols (before ++ after) → no_clash cols rs.
Proof.
  induction after as [|r rest IH]; intros before rs Hcols; simpl.
  { intros [= <-]. by rewrite app_nil_r. }
  case_bool_decide.
  - destruct (_ ++ still_referenced _ _ _ _) eqn:V; [|done].
    apply app_nil in V as [V _].
    pose proof (accepted_no_clash _ _ _ _ _ V Hcols) as Hfresh.
    intros Hrun Hok. apply (IH _ _ Hcols Hrun).
    apply no_clash_app in Hok as (Hb & [_ Hr]%(no_clash_app _ [r]) & Hbr).
    destruct Hr as [Hr _]. apply Forall_app in Hfresh as [Hfb Hfr].
    apply no_clash_app. split; [|split; [done|]].
    + by apply no_clash_snoc.
    + apply Forall_app. split.
      * eapply Forall_impl; [exact Hbr|]. intros x Hx. by apply Forall_cons in Hx as [_ ?].
      * by apply Forall_singleton.
  - intros Hrun Hok. apply (IH _ _ Hcols Hrun). by rewrite <-(assoc_L (++)).
Qed.

Lemma update_where_id_no_clash t key assign db db' t' cols :
  update_where_id t key assign db = Committed db' → cols ∈ unique_keys t' →
  no_clash cols (rows t' db) → no_clash cols (rows t' db').
Proof.
  unfold update_where_id. destruct (update_rows _ _ _ _ _ _) as [rs|] eqn:U; [|done].
  intros [= <-] Hcols Hok. destruct (decide (t = t')) as [->|Hne].
  - rewrite rows_set_rows_eq. by eapply update_rows_no_clash.
  - by rewrite rows_set_rows_ne.
Qed.

Lemma reachable_keys_respected db : reachable db → keys_respected db.
Proof.
  induction 1 as [|now s db db' _ IH Hexec]; intros t' cols Hcols.
  - by destruct t'.
  - specialize (IH t' cols Hcols). destruct s as [t r|t key assign|t victim]; cbn [exec] in Hexec.
    + by eapply insert_row_no_clash.
    + by eapply update_where_id_no_clash.
    + destruct (delete_where t victim db) as [d|] eqn:D; [|done].
      injection Hexec as <-. by eapply delete_where_no_clash.
Qed.

End MoreSchemaFacts.

Section RowFacts.
Import Sql.

Lemma fmap_filter_nil {A B} (f : A → B) (P : A → Prop) `{∀ x, Decision (P x)} (l : list A) :
  f <$> filter P l = [] → Forall (λ x, ¬ P x) l.
Proof.
  intros E%fmap_nil_inv. apply Forall_forall. intros x Hx HP.
  assert (x ∈ filter P l) as Hin by by apply list_elem_of_filter.
  rewrite E in Hin. by apply elem_of_nil in Hin.
Qed.

Lemma accepted_well_formed t r others db :
  violations t r others db = [] → well_formed t r.
Proof.
  unfold violations.
  intros (Hu & (Hty & (Hn & (Hck & _)%app_nil)%app_nil)%app_nil)%app_nil.
  split; [|split].
  - intros c Hc. apply fmap_filter_nil in Hu. rewrite Forall_forall in Hu.
    destruct (decide (c ∈ column_names t)) as [|Hno]; [done|].
    destruct (Hu c); [|done]. by apply elem_of_elements, elem_of_dom.
  - apply fmap_filter_nil in Hty. apply fmap_filter_nil in Hn.
    rewrite Forall_forall in Hty, Hn. apply Forall_forall. intros c Hc. split.
    + specialize (Hty c Hc). by destruct (has_type _ _).
    + intros Hnn E. by apply (Hn c Hc).
  - apply fmap_filter_nil in Hck. done.
Qed.

Lemma nulled_well_formed fk keys r :
  fk ∈ foreign_keys → fk_on_delete fk = SET_NULL →
  well_formed (fk_table fk) r →
  well_formed (fk_table fk) (nullify (fk_column fk) keys r).
Proof.
  intros Hfk Hon Hr. unfold nullify. destruct (refers_to _ _); [|done].
  assert (fk_column fk ∈ column_names (fk_table fk) ∧
          Forall (λ c, col_name c = fk_column fk → col_null c = NULLABLE)
                 (columns (fk_table fk)) ∧
          checks (fk_table fk) = []) as (Hc & Hnull & Hck).
  { unfold foreign_keys in Hfk. repeat (apply elem_of_cons in Hfk as [->|Hfk]);
      try discriminate Hon; [..|by apply elem_of_nil in Hfk].
    all: split; [apply (bool_decide_unpack _); vm_compute; exact I|].
    all: split; [|reflexivity].
    all: apply (bool_decide_unpack _); vm_compute; exact I. }
  destruct Hr as (Hk & Hcols & _). split; [|split].
  - intros c [v Hv]. destruct (decide (fk_column fk = c)) as [<-|Hne]; [done|].
    rewrite lookup_insert_ne in Hv by done. by apply Hk.
  - rewrite Forall_forall in Hcols, Hnull. apply Forall_forall. intros c Hin.
    destruct (decide (col_name c = fk_column fk)) as [E|Hne].
    + rewrite E, col_insert_eq. split; [done|]. rewrite (Hnull c Hin E). done.
    + rewrite col_insert_ne by done. by apply Hcols.
  - rewrite Hck. constructor.
Qed.

Lemma delete_where_well_formed t victim db db' t' :
  delete_where t victim db = Some db' →
  Forall (well_formed t') (rows t' db) → Forall (well_formed t') (rows t' db').
Proof.
  apply delete_rows_Forall_in. intros fk Hfk <- Hon keys r. by apply nulled_well_formed.
Qed.

Lemma insert_row_well_formed now t r db db' t' :
  insert_row now t r db = Committed db' →
  Forall (well_formed t') (rows t' db) → Forall (well_formed t') (rows t' db').
Proof.
  unfold insert_row. destruct (violations _ _ _ _) eqn:V; [|done].
  intros [= <-] Hok. destruct (decide (t = t')) as [->|Hne].
  - rewrite rows_set_rows_eq. apply Forall_app. split; [done|].
    apply Forall_singleton. by eapply accepted_well_formed.
  - by rewrite rows_set_rows_ne.
Qed.

Lemma update_rows_well_formed t key assign db : ∀ after before rs,
  update_rows t key assign db before after = inl rs →
  Forall (well_formed t) (before ++ after) → Forall (well_formed t) rs.
Proof.
  induction after as [|r rest IH]; intros before rs; simpl.
  { intros [= <-]. by rewrite app_nil_r. }
  case_bool_decide.
  - destruct (_ ++ still_referenced _ _ _ _) eqn:V; [|done].
    apply app_nil in V as [V _]. intros Hrun Hok. apply (IH _ _ Hrun).
    rewrite !Forall_app, Forall_cons in Hok. destruct Hok as (? & _ & ?).
    rewrite !Forall_app, Forall_singleton. split; [split|]; [done| |done].
    by eapply accepted_well_formed.
  - intros Hrun Hok. apply (IH _ _ Hrun). by rewrite <-(assoc_L (++)).
Qed.

Lemma update_where_id_well_formed t key assign db db' t' :
  update_where_id t key assign db = Committed db' →
  Forall (well_formed t') (rows t' db) → Forall (well_formed t') (rows t' db').
Proof.
  unfold update_where_id. destruct (update_rows _ _ _ _ _ _) as [rs|] eqn:U; [|done].
  intros [= <-] Hok. destruct (decide (t = t')) as [->|Hne].
  - rewrite rows_set_rows_eq. by eapply update_rows_well_formed.
  - by rewrite rows_set_rows_ne.
Qed.

Lemma reachable_well_formed db t : reachable db → Forall (well_formed t) (rows t db).
Proof.
  induction 1 as [|now s db db' _ IH Hexec].
  - destruct t; constructor.
  - destruct s as [t0 r|t0 key assign|t0 victim]; cbn [exec] in Hexec.
    + by eapply insert_row_well_formed.
    + by eapply update_where_id_well_formed.
    + destruct (delete_where t0 victim db) as [d|] eqn:D; [|done].
      injection Hexec as <-. by eapply delete_where_well_formed.
Qed.

Lemma well_formed_column t r c ty n d :
  well_formed t r → Column c ty n d ∈ columns t →
  has_type ty (col r c) = true ∧ (n = NOT_NULL → col r c ≠ NULL).
Proof.
  intros (_ & Hcols & _) Hin. rewrite Forall_forall in Hcols. apply (Hcols _ Hin).
Qed.

Lemma well_formed_rating r :
  well_formed reviews r → ∃ n, col r "rating" = Int n ∧ (1 ≤ n ≤ 5)%Z.
Proof.
  intros Hr.
  destruct (well_formed_column reviews r "rating" INTEGER NOT_NULL NO_DEFAULT Hr)
    as [Hty Hnn].
  { cbn. do 2 apply list_elem_of_further. apply list_elem_of_here. }
  destruct Hr as (_ & _ & Hck). apply Forall_inv in Hck. cbn [snd] in Hck.
  unfold ck_review_rating_range in Hck.
  destruct (col r "rating") as [| | | |n| | | |] eqn:E; try discriminate Hty.
  { by destruct Hnn. }
  exists n. split; [done|].
  destruct (Z.leb_spec 1 n), (Z.leb_spec n 5); simpl in Hck; done || lia.
Qed.

End RowFacts.

Section IntegrityFacts.
Import Sql.

Lemma integrity_up_to_nothing db :
  integrity_up_to (λ _ _, False) db ↔ referential_integrity db.
Proof.
  split; intros H fk r Hfk Hr Hn.
  - by destruct (H fk r Hfk Hr Hn).
  - left. by apply H.
Qed.

Lemma dangling_false db r fk :
  dangling db r fk = false ↔
  (col r (fk_column fk) ≠ NULL → resolves db fk (col r (fk_column fk))).
Proof.
  unfold dangling, resolves. rewrite andb_false_iff, bool_decide_eq_false, negb_false_iff.
  rewrite existsb_exists. split.
  - intros [Hn|(p & Hp & E)] Hnn; [done|]. exists p. split; [by apply list_elem_of_In|].
    by apply bool_decide_eq_true in E.
  - intros H. destruct (decide (col r (fk_column fk) = NULL)) as [E|Hn].
    { left. by intros []. }
    right. destruct (H Hn) as (p & Hp & E). exists p. split; [by apply list_elem_of_In|].
    by apply bool_decide_eq_true.
Qed.

Lemma fk_column_not_id fk : fk ∈ foreign_keys → fk_column fk ≠ "id".
Proof.
  intros Hfk. unfold foreign_keys in Hfk.
  repeat (apply elem_of_cons in Hfk as [->|Hfk]); try discriminate.
  by apply elem_of_nil in Hfk.
Qed.

Lemma fk_not_self fk : fk ∈ foreign_keys → fk_table fk ≠ fk_parent fk.
Proof.
  intros Hfk. unfold foreign_keys in Hfk.
  repeat (apply elem_of_cons in Hfk as [->|Hfk]); try discriminate.
  by apply elem_of_nil in Hfk.
Qed.

Lemma col_nullify_ne c keys r c' : c ≠ c' → col (nullify c keys r) c' = col r c'.
Proof.
  intros Hne. unfold nullify. destruct (refers_to _ _); [|done]. by apply col_insert_ne.
Qed.

Lemma nulled_integrity D fk0 keys d :
  fk0 ∈ foreign_keys → integrity_up_to D d →
  integrity_up_to D
    (set_rows (fk_table fk0) (nullify (fk_column fk0) keys <$> rows (fk_table fk0) d) d).
Proof.
  intros Hfk0 Hd fk r Hfk Hr Hn.
  set (d1 := set_rows _ _ d) in *.
  assert (∀ v, resolves d fk v → resolves d1 fk v) as Hres.
  { intros v (p & Hp & E). unfold resolves, d1.
    destruct (decide (fk_table fk0 = fk_parent fk)) as [Eq|Hne].
    - exists (nullify (fk_column fk0) keys p). rewrite <-Eq, rows_set_rows_eq. split.
      + apply list_elem_of_fmap. exists p. split; [done|]. by rewrite Eq.
      + rewrite col_nullify_ne; [done|]. intros E'. by apply (fk_column_not_id fk0).
    - exists p. by rewrite rows_set_rows_ne. }
  assert (∃ r0 : row, r0 ∈ rows (fk_table fk) d ∧
            (col r (fk_column fk) = col r0 (fk_column fk) ∨ col r (fk_column fk) = NULL))
    as (r0 & Hr0 & [E|E]); [|rewrite E..|done].
  { unfold d1 in Hr. destruct (decide (fk_table fk0 = fk_table fk)) as [Eq|Hne].
    - rewrite <-Eq, rows_set_rows_eq in Hr. apply list_elem_of_fmap in Hr as (r0 & -> & Hr0).
      exists r0. split; [by rewrite <-Eq|]. apply col_nullify.
    - rewrite rows_set_rows_ne in Hr by done. exists r. by split; [|left]. }
  rewrite E in Hn. destruct (Hd fk r0 Hfk Hr0 Hn) as [?|?]; [left; by apply Hres|by right].
Qed.

Lemma without_integrity D t victim db :
  integrity_up_to D db →
  integrity_up_to
    (λ fk v, D fk v ∨ (fk_parent fk = t ∧ v ∈ deleted_keys t victim db))
    (without t victim db).
Proof.
  intros Hd fk r Hfk Hr Hn. unfold without in *.
  assert (r ∈ rows (fk_table fk) db) as Hr0.
  { destruct (decide (t = fk_table fk)) as [->|Hne].
    - rewrite rows_set_rows_eq in Hr. by apply list_elem_of_filter in Hr as [_ ?].
    - by rewrite rows_set_rows_ne in Hr. }
  destruct (Hd fk r Hfk Hr0 Hn) as [(p & Hp & E)|?]; [|right; by left].
  destruct (decide (t = fk_parent fk)) as [->|Hne].
  - destruct (victim p) eqn:V.
    + right. right. split; [done|]. rewrite <-E. unfold deleted_keys.
      apply list_elem_of_fmap. exists p. split; [done|]. by apply list_elem_of_filter.
    + left. exists p. rewrite rows_set_rows_eq. split; [|done]. by apply list_elem_of_filter.
  - left. exists p. by rewrite rows_set_rows_ne.
Qed.

Lemma apply_actions_integrity D delete keys fks : ∀ d d',
  (∀ fk, fk ∈ fks → fk ∈ foreign_keys) →
  (∀ t victim d d', delete t victim d = Some d' →
                    integrity_up_to D d → integrity_up_to D d') →
  apply_actions delete keys fks d = Some d' →
  integrity_up_to D d → integrity_up_to D d'.
Proof.
  induction fks as [|fk fks IH]; intros d d' Hin Hdel.
  { by intros [= <-]. }
  intros (d1 & Hact & Hrun)%apply_actions_cons_Some Hd.
  eapply IH; [|exact Hdel|exact Hrun|].
  { intros fk' ?. apply Hin. by right. }
  unfold referential_action in Hact. destruct (fk_on_delete fk).
  - by eapply Hdel.
  - injection Hact as <-. apply nulled_integrity; [|done]. apply Hin, list_elem_of_here.
Qed.

(** Once the actions of all the keys [fks] have run, no row refers to the
    removed [keys] through any of them. *)
Lemma apply_actions_resolves delete keys fks : ∀ d d',
  (∀ t victim d d' t' (P : row → Prop), survives_nullify P →
      delete t victim d = Some d' → Forall P (rows t' d) → Forall P (rows t' d')) →
  (∀ t victim d d', survives_nullify (λ r, victim r = false) →
      delete t victim d = Some d' → Forall (λ r, victim r = false) (rows t d')) →
  apply_actions delete keys fks d = Some d' →
  ∀ fk, fk ∈ fks →
    Forall (λ r, refers_to keys (col r (fk_column fk)) = false) (rows (fk_table fk) d').
Proof.
  induction fks as [|fk0 fks IH]; intros d d' Hkeep Hgone.
  { intros _ fk Hfk. by apply elem_of_nil in Hfk. }
  intros (d1 & Hact & Hrun)%apply_actions_cons_Some fk [->|Hfk]%elem_of_cons.
  - eapply apply_actions_Forall; [apply not_referring_survives| |exact Hrun|].
    { intros t victim d2 d2'. by apply Hkeep, not_referring_survives. }
    unfold referential_action in Hact. destruct (fk_on_delete fk0).
    + eapply Hgone; [|exact Hact]. apply not_referring_survives.
    + injection Hact as <-. rewrite rows_set_rows_eq. apply Forall_fmap, Forall_forall.
      intros r _. apply nullify_not_referring.
  - by eapply IH.
Qed.

Lemma delete_rows_integrity fuel : ∀ D t victim db db',
  delete_rows fuel t victim db = Some db' →
  integrity_up_to D db → integrity_up_to D db'.
Proof.
  induction fuel as [|fuel IH]; intros D t victim db db'; [done|].
  rewrite delete_rows_S. intros Hrun Hdb fk r Hfk Hr Hn.
  pose proof (without_integrity D t victim db Hdb) as H1.
  eapply apply_actions_integrity in H1; [| |apply IH|exact Hrun].
  2: { intros fk' Hin. unfold referencing in Hin. by apply list_elem_of_filter in Hin as [_ ?]. }
  destruct (H1 fk r Hfk Hr Hn) as [?|[?|[Hp Hk]]]; [by left|by right|].
  exfalso. assert (fk ∈ referencing t) as Hin by by apply list_elem_of_filter.
  pose proof (apply_actions_resolves _ _ _ _ _
    (λ t1 v1 d1 d1' t' P HP, delete_rows_Forall P t' fuel t1 v1 d1 d1' HP)
    (λ t1 v1 d1 d1' HP H, match fuel as n return delete_rows n t1 v1 d1 = Some d1' → _ with
                          | O => λ H, ltac:(discriminate H)
                          | S n => delete_rows_removes n t1 v1 d1 d1' HP
                          end H)
    Hrun fk Hin) as Hgone.
  rewrite Forall_forall in Hgone. specialize (Hgone r Hr).
  unfold refers_to in Hgone. apply bool_decide_eq_false in Hgone. by destruct Hgone.
Qed.

Lemma delete_where_integrity t victim db db' :
  delete_where t victim db = Some db' →
  referential_integrity db → referential_integrity db'.
Proof.
  rewrite <-!integrity_up_to_nothing. apply delete_rows_integrity.
Qed.

End IntegrityFacts.

Section IntegrityOfStatements.
Import Sql.

Lemma accepted_references t r others db fk :
  violations t r others db = [] → fk ∈ foreign_keys → fk_table fk = t →
  col r (fk_column fk) ≠ NULL → resolves db fk (col r (fk_column fk)).
Proof.
  unfold violations.
  intros (_ & (_ & (_ & (_ & (_ & Hfk)%app_nil)%app_nil)%app_nil)%app_nil)%app_nil Hin Ht.
  apply fmap_filter_nil in Hfk. rewrite Forall_forall in Hfk.
  apply dangling_false. specialize (Hfk fk). destruct (dangling db r fk); [|done].
  destruct Hfk; [|done]. by apply list_elem_of_filter.
Qed.

Lemma insert_row_integrity now t r db db' :
  insert_row now t r db = Committed db' →
  referential_integrity db → referential_integrity db'.
Proof.
  unfold insert_row. destruct (violations _ _ _ _) eqn:V; [|done].
  intros [= <-] Hdb fk x Hfk Hx Hn.
  assert (∀ v, resolves db fk v → resolves (set_rows t (rows t db ++ [with_defaults now t r]) db) fk v)
    as Hres.
  { intros v (p & Hp & E). exists p. split; [|done].
    destruct (decide (t = fk_parent fk)) as [->|Hne].
    - rewrite rows_set_rows_eq. apply elem_of_app. by left.
    - by rewrite rows_set_rows_ne. }
  apply Hres. destruct (decide (t = fk_table fk)) as [->|Hne].
  - rewrite rows_set_rows_eq in Hx. apply elem_of_app in Hx as [Hx|Hx%list_elem_of_singleton].
    + by apply Hdb.
    + subst x. by eapply accepted_references.
  - rewrite rows_set_rows_ne in Hx by done. by apply Hdb.
Qed.

(** What [UPDATE] leaves in the table: the rows it did not select, and
    the rewritten ones, each accepted against the state before. *)
Lemma update_rows_inv t key assign db : ∀ after before rs,
  update_rows t key assign db before after = inl rs →
  (∀ x, x ∈ rs →
     x ∈ before ++ after ∨
     ∃ old others, old ∈ after ∧ x = assign ∪ old ∧ violations t x others db = []) ∧
  (∀ old, old ∈ before → old ∈ rs) ∧
  (∀ old, old ∈ after →
     ∃ x, x ∈ rs ∧ (x = old ∨ (x = assign ∪ old ∧ still_referenced t old x db = []))).
Proof.
  induction after as [|r rest IH]; intros before rs; simpl.
  { intros [= <-]. rewrite app_nil_r. split; [by left|]. split; [done|].
    intros old Hold. by apply elem_of_nil in Hold. }
  case_bool_decide.
  - destruct (_ ++ still_referenced _ _ _ _) eqn:V; [|done].
    apply app_nil in V as [V S]. intros (IH1 & IH2 & IH3)%IH. split; [|split].
    + intros x Hx. destruct (IH1 x Hx) as [Hin|(old & others & Hold & -> & Hv)].
      * rewrite <-(assoc_L (++)) in Hin. apply elem_of_app in Hin as [Hin|Hin].
        { left. apply elem_of_app. by left. }
        apply elem_of_cons in Hin as [->|Hin].
        { right. exists r, (before ++ rest). split; [apply list_elem_of_here|done]. }
        left. apply elem_of_app. right. by right.
      * right. exists old, others. split; [by right|done].
    + intros old Hold. apply IH2, elem_of_app. by left.
    + intros old [->|Hold]%elem_of_cons; [|by apply IH3].
      exists (assign ∪ r). split; [|by right].
      apply IH2, elem_of_app. right. apply list_elem_of_here.
  - intros (IH1 & IH2 & IH3)%IH. split; [|split].
    + intros x Hx. destruct (IH1 x Hx) as [Hin|(old & others & Hold & -> & Hv)].
      * left. by rewrite <-(assoc_L (++)) in Hin.
      * right. exists old, others. split; [by right|done].
    + intros old Hold. apply IH2, elem_of_app. by left.
    + intros old [->|Hold]%elem_of_cons; [|by apply IH3].
      exists r. split; [|by left]. apply IH2, elem_of_app. right. apply list_elem_of_here.
Qed.

Lemma update_where_id_integrity t key assign db db' :
  update_where_id t key assign db = Committed db' →
  referential_integrity db → referential_integrity db'.
Proof.
  unfold update_where_id. destruct (update_rows _ _ _ _ _ _) as [rs|] eqn:U; [|done].
  apply update_rows_inv in U as (Hnew & _ & Hold).
  intros [= <-] Hdb fk x Hfk Hx Hn.
  destruct (decide (t = fk_table fk)) as [->|Hne].
  - assert (resolves db fk (col x (fk_column fk))) as (p & Hp & E).
    { rewrite rows_set_rows_eq in Hx. destruct (Hnew x Hx) as [Hin|(old & others & _ & _ & V)].
      - by apply Hdb.
      - by eapply accepted_references. }
    exists p. split; [|done]. rewrite rows_set_rows_ne; [done|]. by apply fk_not_self.
  - rewrite rows_set_rows_ne in Hx by done.
    destruct (Hdb fk x Hfk Hx Hn) as (p & Hp & E).
    destruct (decide (t = fk_parent fk)) as [->|Hnp].
    + destruct (Hold p Hp) as (p' & Hp' & [->|[Hp'' Hs]]).
      { exists p. by rewrite rows_set_rows_eq. }
      exists p'. rewrite rows_set_rows_eq. split; [done|].
      unfold still_referenced in Hs. case_bool_decide as Hid; [congruence|].
      apply fmap_filter_nil in Hs. rewrite Forall_forall in Hs.
      destruct (Hs fk); [by apply list_elem_of_filter|].
      apply existsb_exists. exists x. split; [by apply list_elem_of_In|].
      apply bool_decide_eq_true. split; [done|]. rewrite E. apply list_elem_of_here.
    + exists p. by rewrite rows_set_rows_ne.
Qed.

Lemma reachable_integrity db : reachable db → referential_integrity db.
Proof.
  induction 1 as [|now s db db' _ IH Hexec].
  - intros fk r _ Hr. by destruct (fk_table fk); apply elem_of_nil in Hr.
  - destruct s as [t0 r|t0 key assign|t0 victim]; cbn [exec] in Hexec.
    + by eapply insert_row_integrity.
    + by eapply update_where_id_integrity.
    + destruct (delete_where t0 victim db) as [d|] eqn:D; [|done].
      injection Hexec as <-. by eapply delete_where_integrity.
Qed.

End IntegrityOfStatements.

Section Invariants.
Import Sql.

Lemma id_not_null t r : well_formed t r → col r "id" ≠ NULL.
Proof.
  intros Hr. apply (well_formed_column t r "id" UUID NOT_NULL NO_DEFAULT Hr); [|done].
  destruct t; cbn; repeat first [apply list_elem_of_here | apply list_elem_of_further].
Qed.

Lemma same_key_one c (r o : row) : col r c ≠ NULL → col r c = col o c → same_key [c] r o = true.
Proof.
  intros Hn E. unfold same_key. simpl. rewrite andb_true_r. by apply bool_decide_eq_true.
Qed.

(** X1. In every state the database can reach, no two rows of a table
    collide on a key the table declares PRIMARY KEY or UNIQUE; in
    particular an id names at most one row of its table and an email at
    most one user. *)
Theorem declared_keys_never_repeat (db : DB) :
  reachable db →
  (∀ t cols i j (r1 r2 : row),
      cols ∈ unique_keys t →
      rows t db !! i = Some r1 → rows t db !! j = Some r2 →
      same_key cols r1 r2 = true → i = j) ∧
  (∀ t i j (r1 r2 : row),
      rows t db !! i = Some r1 → rows t db !! j = Some r2 →
      col r1 "id" = col r2 "id" → i = j) ∧
  (∀ i j (u1 u2 : row),
      rows users db !! i = Some u1 → rows users db !! j = Some u2 →
      col u1 "email" = col u2 "email" → i = j).
Proof.
  intros Hreach.
  assert (∀ t cols i j (r1 r2 : row),
      cols ∈ unique_keys t →
      rows t db !! i = Some r1 → rows t db !! j = Some r2 →
      same_key cols r1 r2 = true → i = j) as Hkeys.
  { intros t cols i j r1 r2 Hcols. apply no_clash_lookup.
    by apply reachable_keys_respected. }
  split; [done|]. split.
  - intros t i j r1 r2 H1 H2 E. apply (Hkeys t ["id"] i j r1 r2); [|done..|].
    { destruct t; cbn; apply list_elem_of_here. }
    apply same_key_one; [|done]. apply (id_not_null t).
    pose proof (reachable_well_formed db t Hreach) as Hwf. rewrite Forall_forall in Hwf.
    by eapply Hwf, list_elem_of_lookup_2.
  - intros i j u1 u2 H1 H2 E. apply (Hkeys users ["email"] i j u1 u2); [|done..|].
    { cbn. apply list_elem_of_further, list_elem_of_here. }
    apply same_key_one; [|done].
    pose proof (reachable_well_formed db users Hreach) as Hwf. rewrite Forall_forall in Hwf.
    apply (well_formed_column users u1 "email" (VARCHAR 255) NOT_NULL NO_DEFAULT); [|..|done].
    + by eapply Hwf, list_elem_of_lookup_2.
    + cbn. apply list_elem_of_here.
Qed.

Lemma declared_keys_never_repeat_witness :
  reachable reviewed_market ∧
  ∀ i j (u1 u2 : row),
    rows users reviewed_market !! i = Some u1 →
    rows users reviewed_market !! j = Some u2 →
    col u1 "email" = col u2 "email" → i = j.
Proof.
  assert (reachable reviewed_market) as Hreach.
  { apply (run_script_reachable (market_script ++ [INSERT reviews (review 50 5)])
             1%Z empty_db); [vm_compute; reflexivity|apply reachable_empty]. }
  split; [exact Hreach|].
  apply (proj2 (proj2 (declared_keys_never_repeat reviewed_market Hreach))).
Defined.

(** X2. Every row stored in a state the database can reach meets what
    its table declares: only declared columns, each value of the
    column's type, no NULL in a NOT NULL column, no CHECK false.  So a
    stored review always carries a rating from 1 to 5, whatever INSERTs,
    UPDATEs and DELETEs led there. *)
Theorem stored_rows_meet_declarations (db : DB) :
  reachable db →
  (∀ t (r : row), r ∈ rows t db → well_formed t r) ∧
  (∀ r : row, r ∈ rows reviews db →
     ∃ n, col r "rating" = Int n ∧ (1 ≤ n ≤ 5)%Z).
Proof.
  intros Hreach.
  assert (∀ t (r : row), r ∈ rows t db → well_formed t r) as Hwf.
  { intros t. apply Forall_forall. by apply reachable_well_formed. }
  split; [done|]. intros r Hr. by apply well_formed_rating, Hwf.
Qed.

Lemma stored_rows_meet_declarations_witness :
  reachable reviewed_market ∧
  ∀ r : row, r ∈ rows reviews reviewed_market →
    ∃ n, col r "rating" = Int n ∧ (1 ≤ n ≤ 5)%Z.
Proof.
  assert (reachable reviewed_market) as Hreach.
  { apply (run_script_reachable (market_script ++ [INSERT reviews (review 50 5)])
             1%Z empty_db); [vm_compute; reflexivity|apply reachable_empty]. }
  split; [exact Hreach|].
  apply (proj2 (stored_rows_meet_declarations reviewed_market Hreach)).
Defined.

(** X3. Referential integrity: in every state the database can reach,
    a reference that is not NULL names the id of a row that is in the
    table the foreign key points at. *)
Theorem references_always_resolve (db : DB) (fk : foreign_key) (r : row) :
  reachable db →
  fk ∈ foreign_keys → r ∈ rows (fk_table fk) db → col r (fk_column fk) ≠ NULL →
  ∃ p : row, p ∈ rows (fk_parent fk) db ∧ col p "id" = col r (fk_column fk).
Proof. intros Hreach. by apply reachable_integrity. Qed.

Lemma references_always_resolve_witness :
  ∃ p : row, p ∈ rows books reviewed_market ∧ col p "id" = Uuid 10.
Proof.
  assert (reachable reviewed_market) as Hreach.
  { apply (run_script_reachable (market_script ++ [INSERT reviews (review 50 5)])
             1%Z empty_db); [vm_compute; reflexivity|apply reachable_empty]. }
  apply (references_always_resolve reviewed_market
           (ForeignKeyDecl order_items "book_id" books SET_NULL)
           (with_defaults 5 order_items bobs_item) Hreach).
  - unfold foreign_keys. do 5 apply list_elem_of_further. apply list_elem_of_here.
  - apply (bool_decide_unpack _). vm_compute. exact I.
  - vm_compute. discriminate.
Defined.

End Invariants.

Section Frame.
Import Sql.

Lemma apply_actions_frame t' delete keys fks : ∀ d d',
  (∀ fk, fk ∈ fks → fk_on_delete fk = SET_NULL → fk_table fk ≠ t') →
  (∀ fk, fk ∈ fks → fk_on_delete fk = CASCADE →
     ∀ victim d d', delete (fk_table fk) victim d = Some d' → rows t' d' = rows t' d) →
  apply_actions delete keys fks d = Some d' →
  rows t' d' = rows t' d.
Proof.
  induction fks as [|fk fks IH]; intros d d' Hnull Hdel.
  { by intros [= <-]. }
  intros (d1 & Hact & Hrun)%apply_actions_cons_Some.
  transitivity (rows t' d1).
  - apply IH; [| |done].
    + intros fk' ?. apply Hnull. by right.
    + intros fk' ?. apply Hdel. by right.
  - unfold referential_action in Hact. destruct (fk_on_delete fk) eqn:Hon.
    + eapply Hdel; [apply list_elem_of_here|done|exact Hact].
    + injection Hact as <-. apply rows_set_rows_ne. apply Hnull; [apply list_elem_of_here|done].
Qed.

Lemma downstream_self fuel t : t ∈ downstream fuel t.
Proof. destruct fuel; apply list_elem_of_here. Qed.

Lemma delete_rows_below t' fuel :
  (∀ t victim db db', t' ∉ downstream fuel t →
     delete_rows fuel t victim db = Some db' → rows t' db' = rows t' db) →
  ∀ t victim db db',
    t' ∉ (referencing t ≫= λ fk, downstream fuel (fk_table fk)) →
    delete_rows (S fuel) t victim db = Some db' →
    rows t' db' = rows t' (without t victim db).
Proof.
  intros IH t victim db db' Hout. rewrite delete_rows_S. apply apply_actions_frame.
  - intros fk Hfk _ E. apply Hout, list_elem_of_bind. exists fk. split; [|done].
    rewrite <-E. apply downstream_self.
  - intros fk Hfk _ v d d'. apply IH. intros Hin. apply Hout, list_elem_of_bind.
    by exists fk.
Qed.

Lemma delete_rows_frame t' fuel : ∀ t victim db db',
  t' ∉ downstream fuel t →
  delete_rows fuel t victim db = Some db' → rows t' db' = rows t' db.
Proof.
  induction fuel as [|fuel IH]; intros t victim db db' Hout; [done|].
  intros Hrun. transitivity (rows t' (without t victim db)).
  - revert Hrun. apply delete_rows_below; [done|]. intros Hin. apply Hout. by right.
  - unfold without. apply rows_set_rows_ne. intros ->. apply Hout. by left.
Qed.

Lemma delete_rows_own_table fuel t victim db db' :
  t ∉ (referencing t ≫= λ fk, downstream fuel (fk_table fk)) →
  delete_rows (S fuel) t victim db = Some db' →
  rows t db' = filter (λ r, victim r = false) (rows t db).
Proof.
  intros Hout Hrun. erewrite delete_rows_below; [|apply delete_rows_frame|done|done].
  unfold without. apply rows_set_rows_eq.
Qed.

Lemma no_cycle t : t ∉ (referencing t ≫= λ fk, downstream 2 (fk_table fk)).
Proof. destruct t; apply (bool_decide_unpack _); vm_compute; exact I. Qed.

(** X4. DELETE FROM t removes from t exactly the rows it selects, and
    changes no table but those downstream of t through the foreign keys;
    so users are removed only by a DELETE FROM users, and a DELETE FROM
    reviews, messages or order_items changes that one table. *)
Theorem delete_changes_only_downstream (t : table) (victim : row → bool) (db db' : DB) :
  delete_where t victim db = Some db' →
  rows t db' = filter (λ r, victim r = false) (rows t db) ∧
  (∀ t', t' ∉ downstream cascade_depth t → rows t' db' = rows t' db) ∧
  (t ≠ users → rows users db' = rows users db) ∧
  (t ∈ [reviews; messages; order_items] → ∀ t', t' ≠ t → rows t' db' = rows t' db).
Proof.
  intros Hrun.
  assert (∀ t', t' ∉ downstream cascade_depth t → rows t' db' = rows t' db) as Hframe.
  { intros t' Hout. revert Hrun. by apply delete_rows_frame. }
  split; [|split; [done|split]].
  - revert Hrun. apply delete_rows_own_table, no_cycle.
  - intros Hne. apply Hframe. destruct t; [done|..];
      apply (bool_decide_unpack _); vm_compute; exact I.
  - intros Ht t' Hne. apply Hframe.
    repeat (apply elem_of_cons in Ht as [->|Ht]); [..|by apply elem_of_nil in Ht].
    all: vm_compute; intros [->|Hin%elem_of_nil]%elem_of_cons; done.
Qed.

Lemma delete_changes_only_downstream_witness :
  rows users (default empty_db (delete_where books (has_id 10) reviewed_market))
    = rows users reviewed_market.
Proof.
  apply (proj1 (proj2 (proj2 (delete_changes_only_downstream books (has_id 10)
                  reviewed_market
                  (default empty_db (delete_where books (has_id 10) reviewed_market))
                  ltac:(vm_compute; reflexivity))))).
  discriminate.
Defined.

End Frame.

Section Owners.
Import Sql.

Local Ltac in_list :=
  cbn; repeat first [apply list_elem_of_here | apply list_elem_of_further].

(** A reference through a NOT NULL column always has its parent row. *)
Lemma parent_exists db fk (r : row) ty d :
  reachable db → fk ∈ foreign_keys → r ∈ rows (fk_table fk) db →
  Column (fk_column fk) ty NOT_NULL d ∈ columns (fk_table fk) →
  ∃ p : row, p ∈ rows (fk_parent fk) db ∧ col p "id" = col r (fk_column fk).
Proof.
  intros Hreach Hfk Hr Hcol. apply (reachable_integrity db Hreach fk r Hfk Hr).
  pose proof (reachable_well_formed db (fk_table fk) Hreach) as Hwf.
  rewrite Forall_forall in Hwf.
  by apply (well_formed_column _ _ _ _ _ _ (Hwf r Hr) Hcol).
Qed.

(** X5. After DELETE FROM users nothing is left of the users removed,
    however far down the keys it hangs: the rows selected are gone from
    users, every review that remains is by a user who remains and about
    a book whose seller remains, and every order item that remains
    belongs to an order whose buyer remains. *)
Theorem delete_users_leaves_nothing_of_theirs (db db' : DB) (victim : row → bool) :
  reachable db → delete_where users victim db = Some db' →
  rows users db' = filter (λ u, victim u = false) (rows users db) ∧
  (∀ r : row, r ∈ rows reviews db' →
     ∃ u b s : row,
       u ∈ rows users db' ∧ victim u = false ∧ col u "id" = col r "user_id" ∧
       b ∈ rows books db' ∧ col b "id" = col r "book_id" ∧
       s ∈ rows users db' ∧ victim s = false ∧ col s "id" = col b "seller_id") ∧
  (∀ i : row, i ∈ rows order_items db' →
     ∃ o u : row,
       o ∈ rows orders db' ∧ col o "id" = col i "order_id" ∧
       u ∈ rows users db' ∧ victim u = false ∧ col u "id" = col o "buyer_id").
Proof.
  intros Hreach Hrun.
  assert (reachable db') as Hreach'.
  { apply (reachable_exec 0%Z (DELETE users victim) db db' Hreach). cbn [exec]. by rewrite Hrun. }
  assert (∀ fk (r : row), fk ∈ foreign_keys →
            Column (fk_column fk) UUID NOT_NULL NO_DEFAULT ∈ columns (fk_table fk) →
            r ∈ rows (fk_table fk) db' →
            ∃ p : row, p ∈ rows (fk_parent fk) db' ∧ col p "id" = col r (fk_column fk))
    as Hparent.
  { intros fk r Hfk Hcol Hr. by eapply parent_exists. }
  assert (rows users db' = filter (λ u, victim u = false) (rows users db)) as Husers.
  { revert Hrun. apply delete_rows_own_table, no_cycle. }
  assert (∀ u : row, u ∈ rows users db' → victim u = false) as Hkept.
  { intros u. rewrite Husers. by intros [? _]%list_elem_of_filter. }
  split; [done|split].
  - intros r Hr.
    destruct (Hparent (ForeignKeyDecl reviews "user_id" users CASCADE) r)
      as (u & Hu & Eu); [in_list|in_list|done|].
    destruct (Hparent (ForeignKeyDecl reviews "book_id" books CASCADE) r)
      as (b & Hb & Eb); [in_list|in_list|done|].
    destruct (Hparent (ForeignKeyDecl books "seller_id" users CASCADE) b)
      as (s & Hs & Es); [in_list|in_list|done|].
    cbn in *. exists u, b, s. repeat split; try done; by apply Hkept.
  - intros i Hi.
    destruct (Hparent (ForeignKeyDecl order_items "order_id" orders CASCADE) i)
      as (o & Ho & Eo); [in_list|in_list|done|].
    destruct (Hparent (ForeignKeyDecl orders "buyer_id" users CASCADE) o)
      as (u & Hu & Eu); [in_list|in_list|done|].
    cbn in *. exists o, u. repeat split; try done; by apply Hkept.
Qed.

Lemma delete_users_leaves_nothing_of_theirs_witness :
  rows users (default empty_db (delete_where users (has_id 2) reviewed_market))
    = filter (λ u, has_id 2 u = false) (rows users reviewed_market).
Proof.
  assert (reachable reviewed_market) as Hreach.
  { apply (run_script_reachable (market_script ++ [INSERT reviews (review 50 5)])
             1%Z empty_db); [vm_compute; reflexivity|apply reachable_empty]. }
  apply (delete_users_leaves_nothing_of_theirs reviewed_market
           (default empty_db (delete_where users (has_id 2) reviewed_market))
           (has_id 2) Hreach).
  vm_compute. reflexivity.
Defined.

End Owners.

Section Rejections.
Import Sql.

Lemma rejected_with v t r others db :
  v ∈ violations t r others db →
  ∃ broken, violations t r others db = broken ∧ broken ≠ [] ∧ v ∈ broken.
Proof.
  intros Hin. exists (violations t r others db). split; [done|]. split; [|done].
  intros E. rewrite E in Hin. by apply elem_of_nil in Hin.
Qed.

Lemma insert_row_rejects v now t r db :
  v ∈ violations t (with_defaults now t r) (rows t db) db →
  ∃ broken, insert_row now t r db = Rejected broken ∧ v ∈ broken ∧
            state_after db (insert_row now t r db) = db.
Proof.
  intros Hin. unfold insert_row.
  destruct (violations _ _ _ _) as [|v0 vs] eqn:V; [by apply elem_of_nil in Hin|].
  by exists (v0 :: vs).
Qed.

Lemma out_of_range_check (r : row) rating others db :
  col r "rating" = Int rating → ¬ (1 ≤ rating ≤ 5)%Z →
  CheckFailed "ck_review_rating_range" ∈ violations reviews r others db.
Proof.
  intros Hrating Hout. unfold violations. rewrite !elem_of_app. do 3 right. left.
  unfold check_violations. apply list_elem_of_fmap.
  exists ("ck_review_rating_range", ck_review_rating_range). split; [done|].
  apply list_elem_of_filter. split; [|apply list_elem_of_here].
  cbn [snd]. unfold ck_review_rating_range. rewrite Hrating. f_equal.
  apply andb_false_iff. rewrite !Z.leb_gt. lia.
Qed.

Lemma update_rows_rejects v t key assign db : ∀ after before,
  (∀ r others, v ∈ violations t (assign ∪ r) others db) →
  (∃ old : row, old ∈ after ∧ col old "id" ≠ NULL ∧ col old "id" = key) →
  ∃ broken, update_rows t key assign db before after = inr broken ∧ v ∈ broken.
Proof.
  intros after before Hv. revert before.
  induction after as [|r rest IH]; intros before (old & Hold & Hn & Hk).
  { by apply elem_of_nil in Hold. }
  simpl. case_bool_decide as Hsel.
  - specialize (Hv r (before ++ rest)).
    destruct (_ ++ still_referenced _ _ _ _) as [|v0 vs] eqn:V.
    + apply app_nil in V as [V _]. rewrite V in Hv. by apply elem_of_nil in Hv.
    + exists (v0 :: vs). split; [done|]. rewrite <-V. apply elem_of_app. by left.
  - apply IH. exists old. split; [|done].
    apply elem_of_cons in Hold as [->|?]; [|done]. by destruct Hsel.
Qed.

(** X6. The rating check guards UPDATE as it guards INSERT: an UPDATE
    that sets the rating of a stored review outside 1..5 is rejected
    for ck_review_rating_range and leaves the database as it was. *)
Theorem update_rating_out_of_range_rejected
    (db : DB) (key : sqlval) (assign old : row) (rating : Z) :
  old ∈ rows reviews db → col old "id" = key → key ≠ NULL →
  assign !! "rating" = Some (Int rating) → ¬ (1 ≤ rating ≤ 5)%Z →
  ∃ broken,
    update_where_id reviews key assign db = Rejected broken ∧
    CheckFailed "ck_review_rating_range" ∈ broken ∧
    state_after db (update_where_id reviews key assign db) = db.
Proof.
  intros Hold Hk Hn Hassign Hout. unfold update_where_id.
  destruct (update_rows_rejects (CheckFailed "ck_review_rating_range")
              reviews key assign db (rows reviews db) [])
    as (broken & -> & Hin).
  - intros r others. apply (out_of_range_check _ rating); [|done].
    unfold col. by erewrite lookup_union_Some_l.
  - exists old. by rewrite Hk.
  - by exists broken.
Qed.

Lemma update_rating_out_of_range_rejected_witness :
  ∃ broken,
    update_where_id reviews (Uuid 50) {[ "rating" := Int 0 ]} reviewed_market
      = Rejected broken ∧
    CheckFailed "ck_review_rating_range" ∈ broken ∧
    state_after reviewed_market
      (update_where_id reviews (Uuid 50) {[ "rating" := Int 0 ]} reviewed_market)
      = reviewed_market.
Proof.
  apply (update_rating_out_of_range_rejected reviewed_market (Uuid 50)
           {[ "rating" := Int 0 ]} (with_defaults 7 reviews (review 50 5)) 0).
  - apply (bool_decide_unpack _). vm_compute. exact I.
  - vm_compute. reflexivity.
  - discriminate.
  - vm_compute. reflexivity.
  - lia.
Defined.

(** X7. A row whose reference names no row of the table the foreign key
    points at is not inserted: the INSERT is rejected for that key and
    the database stays as it was. *)
Theorem insert_rejects_dangling_reference
    (now : Z) (db : DB) (fk : foreign_key) (r : row) :
  fk ∈ foreign_keys → col r (fk_column fk) ≠ NULL →
  (∀ p : row, p ∈ rows (fk_parent fk) db → col p "id" ≠ col r (fk_column fk)) →
  ∃ broken,
    insert_row now (fk_table fk) r db = Rejected broken ∧
    ForeignKey (fk_table fk) (fk_column fk) ∈ broken ∧
    state_after db (insert_row now (fk_table fk) r db) = db.
Proof.
  intros Hfk Hn Hnone. apply insert_row_rejects.
  assert (col (with_defaults now (fk_table fk) r) (fk_column fk) = col r (fk_column fk))
    as Hcol.
  { unfold col in *. destruct (r !! fk_column fk) as [v|] eqn:E; [|done].
    by erewrite with_defaults_keeps. }
  unfold violations. rewrite !elem_of_app. do 5 right.
  unfold fk_violations. apply list_elem_of_fmap. exists fk. split; [done|].
  apply list_elem_of_filter. split; [|by apply list_elem_of_filter].
  destruct (dangling db _ fk) eqn:D; [done|]. exfalso.
  apply dangling_false in D as (p & Hp & E); [|by rewrite Hcol].
  apply (Hnone p Hp). by rewrite E.
Qed.

Lemma insert_rejects_dangling_reference_witness :
  ∃ broken,
    insert_row 8 books (<["seller_id" := Uuid 3]> anns_book) reviewed_market
      = Rejected broken ∧
    ForeignKey books "seller_id" ∈ broken ∧
    state_after reviewed_market
      (insert_row 8 books (<["seller_id" := Uuid 3]> anns_book) reviewed_market)
      = reviewed_market.
Proof.
  apply (insert_rejects_dangling_reference 8 reviewed_market
           (ForeignKeyDecl books "seller_id" users CASCADE)
           (<["seller_id" := Uuid 3]> anns_book)).
  - apply list_elem_of_here.
  - vm_compute. discriminate.
  - apply Forall_forall. apply (bool_decide_unpack _). vm_compute. exact I.
Defined.

(** X8. A declared key rejects a repeated value and nothing else: an
    INSERT whose row agrees with a stored row on all columns of a
    PRIMARY KEY or UNIQUE key of the table is rejected for that key and
    changes nothing, while a row that is NULL in a column of the key
    never breaks it (so any number of orders may lack a Stripe id). *)
Theorem unique_keys_reject_repeats_not_nulls
    (now : Z) (db : DB) (t : table) (cols : list string) (r : row) :
  cols ∈ unique_keys t →
  (∀ old : row, old ∈ rows t db → same_key cols (with_defaults now t r) old = true →
     ∃ broken, insert_row now t r db = Rejected broken ∧ Unique t cols ∈ broken ∧
               state_after db (insert_row now t r db) = db) ∧
  (∀ c, c ∈ cols → col (with_defaults now t r) c = NULL →
     Unique t cols ∉ violations t (with_defaults now t r) (rows t db) db).
Proof.
  intros Hcols. split.
  - intros old Hold Hsame. apply insert_row_rejects.
    unfold violations. rewrite !elem_of_app. do 4 right. left.
    unfold unique_violations. apply list_elem_of_fmap. exists cols. split; [done|].
    apply list_elem_of_filter. split; [|done].
    apply existsb_exists. exists old. split; [by apply list_elem_of_In|done].
  - intros c Hc Hnull Hin. unfold violations in Hin.
    unfold unknown_columns, type_mismatches, null_violations, check_violations,
      unique_violations, fk_violations in Hin.
    rewrite !elem_of_app, !list_elem_of_fmap in Hin.
    destruct Hin as [(? & ? & _)|[(? & ? & _)|[(? & ? & _)|[(? & ? & _)|
                     [(cols' & [= <-] & Hin)|(? & ? & _)]]]]]; try discriminate.
    apply list_elem_of_filter in Hin as [(o & _ & Hsame)%existsb_exists _].
    unfold same_key in Hsame. rewrite forallb_forall in Hsame.
    specialize (Hsame c). rewrite bool_decide_eq_true in Hsame.
    destruct Hsame as [Hn _]; [by apply list_elem_of_In|done].
Qed.

Lemma unique_keys_reject_repeats_not_nulls_witness :
  ∃ broken,
    insert_row 8 users (<["id" := Uuid 3]> ann) reviewed_market = Rejected broken ∧
    Unique users ["email"] ∈ broken ∧
    state_after reviewed_market
      (insert_row 8 users (<["id" := Uuid 3]> ann) reviewed_market) = reviewed_market.
Proof.
  apply (proj1 (unique_keys_reject_repeats_not_nulls 8 reviewed_market users ["email"]
                  (<["id" := Uuid 3]> ann)
                  ltac:(cbn; apply list_elem_of_further, list_elem_of_here))
           (with_defaults 1 users ann)).
  - apply (bool_decide_unpack _). vm_compute. exact I.
  - vm_compute. reflexivity.
Defined.

End Rejections.

Section UpsertExtras.
Import Js.

(** X11. Against the collection object of the MongoDB driver, whose
    method is findOne, syncUser never gets past its lookup: it answers
    400 when the body has no email and otherwise throws the TypeError of
    calling findone, sends no response and stores nothing. *)
Theorem syncUser_with_driver_collection (now : Z) (body : object) (c : collection)
    (ops : bool) :
  let users := Return {| method := mongodb_methods; result_has_ops := ops |} in
  (syncUser users now body c).1 = c ∧
  (syncUser users now body c).2 =
    if truthy (prop body "email") then
      Finished (Throw (TypeError "findone is not a function")) []
    else
      Finished (Return ())
        [ {| status := 400; body := [("message", JString " Email is required")] |} ].
Proof.
  intros users. unfold users, syncUser. cbn [step]. unfold syncUser_lookup, invoke.
  by destruct (truthy (prop body "email")).
Qed.

End UpsertExtras.

Section RouteFacts.
Import Js.

(** X12. The route /api/user answers every request exactly once: 401
    without a token, 403 when the token does not verify under
    NEXTAUTH_SECRET, and 200 with the payload decoded from the token
    when it does; so the profile is served for verified tokens only. *)
Theorem get_api_user_answers_once
    (jwt_verify : option string → option string → completion object)
    (env : environment) (req : request) :
  let token := or_else (h ← headers req !! "authoriztion"; split space h !! 1)
                       (cookies req !! "next-auth.session-token") in
  ∃ x, get_api_user jwt_verify env req (fresh_exchange, ()) = (Return (), (x, ())) ∧
    sent x =
      [ if negb (truthy_str token) then
          {| status := 401; body := [("error", JString "No token")] |}
        else match jwt_verify token (env !! "NEXTAUTH_SECRET") with
             | Return decoded =>
                 {| status := 200;
                    body := [("message", JString "User profile access granted");
                             ("user", JObject decoded)] |}
             | Throw _ => {| status := 403; body := [("error", JString "Invalid token")] |}
             end ].
Proof.
  intros token. unfold get_api_user, app_get, authMiddleware. fold token.
  unfold mbind at 1. unfold eff_bind.
  destruct (negb (truthy_str token)); simpl; [by eexists|].
  unfold try_catch, mbind, eff_bind, lift, JWT_SECRET.
  destruct (jwt_verify token (env !! "NEXTAUTH_SECRET")); simpl; by eexists.
Qed.

Lemma split_nonempty sep s : split sep s ≠ [].
Proof.
  induction s as [|c s IH]; simpl; [done|].
  destruct (split sep s); [done|]. by destruct (Ascii.eqb c sep).
Qed.

(** The word before the first separator is cut off whole. *)
Lemma split_first_word sep w rest :
  split sep w = [w] → split sep (String.append w (String sep rest)) = w :: split sep rest.
Proof.
  induction w as [|c w IH]; simpl.
  - intros _. destruct (split sep rest) eqn:E; [by apply split_nonempty in E|].
    by rewrite Ascii.eqb_refl.
  - destruct (split sep w) as [|a ws] eqn:E; [done|].
    destruct (Ascii.eqb c sep); [done|]. intros [= -> ->].
    by rewrite IH.
Qed.

Lemma second_word w t :
  split space w = [w] → split space t = [t] →
  split space (String.append w (String space t)) !! 1 = Some t.
Proof. intros Hw Ht. by rewrite split_first_word, Ht. Qed.

(** X13. The token authMiddleware verifies is the second word of the
    header it reads, whatever the first word (the scheme) is and whatever
    the cookie holds; only when the header is absent or has no second
    word is the session cookie verified instead. *)
Theorem authMiddleware_token_choice
    (jwt_verify : option string → option string → completion object)
    (env : environment) (req : request) :
  (∀ w t, headers req !! "authoriztion" = Some (String.append w (String space t)) →
     split space w = [w] → split space t = [t] → t ≠ "" →
     authMiddleware jwt_verify env req =
       try_catch
         (decoded ← lift (jwt_verify (Some t) (env !! "NEXTAUTH_SECRET"));
          _ ← set_req_user (Decoded decoded);
          next)
         (λ err, res_json 403 [("error", JString "Invalid token")])) ∧
  (∀ k, (headers req !! "authoriztion" = None ∨
         ∃ w, headers req !! "authoriztion" = Some w ∧ split space w = [w]) →
     cookies req !! "next-auth.session-token" = Some k → k ≠ "" →
     authMiddleware jwt_verify env req =
       try_catch
         (decoded ← lift (jwt_verify (Some k) (env !! "NEXTAUTH_SECRET"));
          _ ← set_req_user (Decoded decoded);
          next)
         (λ err, res_json 403 [("error", JString "Invalid token")])).
Proof.
  split.
  - intros w t Hh Hw Ht Hne. unfold authMiddleware. rewrite Hh. cbn [mbind option_bind].
    rewrite second_word by done. unfold or_else. cbn [truthy_str].
    rewrite (proj2 (String.eqb_neq t "") Hne). cbn [negb truthy_str].
    by rewrite (proj2 (String.eqb_neq t "") Hne).
  - intros k Hh Hk Hne. unfold authMiddleware. rewrite Hk.
    assert ((h ← headers req !! "authoriztion"; split space h !! 1) = None) as ->.
    { destruct Hh as [->|(w & -> & Hw)]; [done|]. cbn [mbind option_bind]. by rewrite Hw. }
    unfold or_else. cbn [truthy_str negb].
    by rewrite (proj2 (String.eqb_neq k "") Hne).
Qed.

Lemma authMiddleware_token_choice_witness :
  authMiddleware toy_verify toy_env
    {| headers := {[ "authoriztion" := "Basic good.token" ]};
       cookies := {[ "next-auth.session-token" := "stale" ]} |} =
    try_catch
      (decoded ← lift (toy_verify (Some "good.token") (toy_env !! "NEXTAUTH_SECRET"));
       _ ← set_req_user (Decoded decoded);
       next)
      (λ err, res_json 403 [("error", JString "Invalid token")]).
Proof.
  apply (proj1 (authMiddleware_token_choice toy_verify toy_env
     {| headers := {[ "authoriztion" := "Basic good.token" ]};
        cookies := {[ "next-auth.session-token" := "stale" ]} |}) "Basic" "good.token").
  - reflexivity.
  - reflexivity.
  - reflexivity.
  - discriminate.
Defined.

End RouteFacts.

Section ProtectFacts.
Import Js.

Lemma startsWith_Bearer_nonempty h : startsWith "Bearer" h = true → String.eqb h "" = false.
Proof. by destruct h. Qed.

(** X14. protect either passes the request on or answers it with 401,
    never both; and it answers twice, the second response failing with
    ERR_HTTP_HEADERS_SENT, exactly when the header names the Bearer
    scheme without a token after it. *)
Theorem protect_passes_or_answers
    (jwt_verify : option string → option string → completion object)
    (new_ObjectId : value → completion N) (env : environment)
    (getDB : completion db_handle) (req : request) (c : collection) :
  (∀ db, getDB = Return db → method (db "users") = mongodb_methods) →
  (∀ t, truthy_str t = false → ∃ e, jwt_verify t (env !! "JWT_SECRET") = Throw e) →
  ∃ res x,
    protect jwt_verify new_ObjectId env getDB req (fresh_exchange, c) = (res, (x, c)) ∧
    ((next_calls x = 1 ∧ sent x = [] ∧ res = Return ()) ∨
     (next_calls x = 0 ∧ ∃ b, sent x = [ {| status := 401; body := b |} ])) ∧
    (bare_scheme req →
       res = Throw ERR_HTTP_HEADERS_SENT ∧
       sent x = [ {| status := 401;
                     body := [("message", JString "Not authorized , token failed")] |} ]) ∧
    (¬ bare_scheme req → res = Return ()).
Proof.
  intros Hdrv Hverify. unfold protect, bare_scheme.
  destruct (headers req !! "authoriztion") as [h|] eqn:Hh; simpl.
  2:{ eexists _, _. split; [done|]. simpl. split; [right; eauto|].
      split; [by intros (h & ? & _)|done]. }
  destruct (startsWith "Bearer" h) eqn:Hb.
  2:{ rewrite andb_false_r. simpl. eexists _, _. split; [done|]. simpl.
      split; [right; eauto|]. split; [|done]. intros (h' & [= <-] & Hb' & _). congruence. }
  rewrite (startsWith_Bearer_nonempty h Hb). simpl.
  unfold mbind, eff_bind, try_catch, lift. simpl.
  destruct (truthy_str (split space h !! 1)) eqn:Ht; simpl.
  - assert (∀ P : Prop, (∃ h0, Some h = Some h0 ∧ startsWith "Bearer" h0 = true ∧
                          truthy_str (split space h0 !! 1) = false) → P)
      as Hnot by (intros P (h' & [= <-] & _ & ?); congruence).
    destruct (jwt_verify (split space h !! 1) (env !! "JWT_SECRET")) as [payload|e]; simpl.
    2:{ eexists _, _. split; [done|]. simpl. split; [right; eauto|]. split; [apply Hnot|done]. }
    destruct getDB as [db|e] eqn:Hdb; simpl.
    2:{ eexists _, _. split; [done|]. simpl. split; [right; eauto|]. split; [apply Hnot|done]. }
    destruct (new_ObjectId (prop payload "id")) as [id|e]; simpl.
    2:{ eexists _, _. split; [done|]. simpl. split; [right; eauto|]. split; [apply Hnot|done]. }
    unfold invoke. rewrite (Hdrv db eq_refl). simpl.
    destruct (list_find _ (docs c)) as [[i d]|]; simpl.
    + eexists _, _. split; [reflexivity|]. simpl. split; [by left|]. split; [apply Hnot|done].
    + eexists _, _. split; [reflexivity|]. simpl. split; [right; eauto|].
      split; [apply Hnot|done].
  - destruct (Hverify _ Ht) as [e ->]. simpl.
    eexists _, _. split; [reflexivity|]. simpl. split; [right; eauto|].
    split; [done|]. intros Hn. destruct Hn. by exists h.
Qed.

Lemma protect_passes_or_answers_witness :
  ∃ res x,
    protect toy_verify toy_ObjectId toy_env driver_handle bare_bearer_request
      (fresh_exchange, one_user) = (res, (x, one_user)) ∧
    ((next_calls x = 1 ∧ sent x = [] ∧ res = Return ()) ∨
     (next_calls x = 0 ∧ ∃ b, sent x = [ {| status := 401; body := b |} ])) ∧
    (bare_scheme bare_bearer_request →
       res = Throw ERR_HTTP_HEADERS_SENT ∧
       sent x = [ {| status := 401;
                     body := [("message", JString "Not authorized , token failed")] |} ]) ∧
    (¬ bare_scheme bare_bearer_request → res = Return ()).
Proof.
  apply (protect_passes_or_answers toy_verify toy_ObjectId toy_env driver_handle
           bare_bearer_request one_user).
  - intros db [= <-]. reflexivity.
  - intros [t|] Ht; [|by eexists]. simpl in Ht.
    destruct (String.eqb_spec t ""); [subst; by eexists|discriminate].
Defined.

End ProtectFacts.

Section SignInFacts.
Import Js.

(** X15. The signIn callback never stores a user.  With the objects of
    the MongoDB driver it never returns at all: it throws, at the latest
    on findone.  And given a collection that did answer findone, it
    returns true for a known email and throws on db.collectoin for an
    unknown one, before any insertOne. *)
Theorem signIn_never_stores (db : db_object) (now : Z) (user : object)
    (m : db_module) (c : collection) :
  db "collectoin" = None →
  (∀ f, db "collection" = Some f →
        method (f "users") "findone" = None ∨ method (f "users") "findone" = Some FindOne) →
  ∃ res m',
    signIn db now user (m, c) = (res, (m', c)) ∧
    (res = Return true →
       ∃ d : object, d ∈ docs c ∧ field d "email" = bson (prop user "email")) ∧
    (db = mongodb_db → ∃ e, res = Throw e).
Proof.
  intros Hno Hfind.
  assert (db = mongodb_db → ∀ f, db "collection" = Some f →
          method (f "users") "findone" = None) as Hdrv.
  { intros -> f [= <-]. reflexivity. }
  unfold signIn, mbind, eff_bind, on_fst, on_snd, lift, connect, call_db. simpl.
  destruct (network m) as [|[e|] rest]; simpl.
  2: { eexists _, _. split; [done|]. split; [done|eauto]. }
  all: destruct (db "collection") as [f|] eqn:Hc; simpl;
    [|eexists _, _; split; [done|]; split; [done|eauto]].
  all: unfold invoke; destruct (Hfind f eq_refl) as [E|E]; rewrite E; simpl;
    [eexists _, _; split; [done|]; split; [done|eauto]|].
  all: destruct (list_find _ (docs c)) as [[i d]|] eqn:F; simpl;
    [|rewrite Hno; simpl; eexists _, _; split; [done|]; split; [done|eauto]].
  all: eexists _, _; (split; [reflexivity|]); split;
    [|intros Hd; specialize (Hdrv Hd f eq_refl); congruence].
  all: intros _; exists d; apply list_find_Some in F as (Hi & Hm & _).
  all: split; [by eapply list_elem_of_lookup_2|by apply matches_email].
Qed.

Lemma signIn_never_stores_witness :
  ∃ e m', signIn mongodb_db 5 ann_body (refused_once, one_user) = (Throw e, (m', one_user)).
Proof.
  destruct (signIn_never_stores mongodb_db 5 ann_body refused_once one_user)
    as (res & m' & Hrun & _ & Hthrows).
  - reflexivity.
  - intros f [= <-]. by left.
  - destruct (Hthrows eq_refl) as [e ->]. by exists e, m'.
Defined.

End SignInFacts.

Section StartFacts.
Import Js.

(** X16. The server starts listening on port 5000 whether or not the
    database could be reached: getDB swallows the failure, so the entry
    point prints what it got (undefined after a failure), then the
    connection string, and binds the port. *)
Theorem start_server_listens (env : environment) (m : db_module) (s : server) :
  ∃ db m',
    getDB env m = (Return db, m') ∧
    start_server env (m, s) =
      (Return (),
       (m', {| stdout := stdout s ++ [PrintedDb db; PrintedString (env !! "MONGODB_URI");
                                      PrintedString (Some "server running")];
               listening := Some 5000 |})) ∧
    (∀ e rest, network m = Some e :: rest → db = None).
Proof.
  assert (∃ db m', getDB env m = (Return db, m') ∧
                   ∀ e rest, network m = Some e :: rest → db = None) as (db & m' & Hrun & Hfail).
  { unfold getDB, try_catch, mbind, eff_bind, lift, connect.
    destruct (new_MongoClient (env !! "MONGODB_URI")) as [client|e]; simpl; [|by eexists _, _].
    destruct (network m) as [|[e|] rest]; simpl; eexists _, _; (split; [done|]); done. }
  exists db, m'. split; [done|]. split; [|done].
  unfold start_server, mbind, eff_bind, on_fst, on_snd. rewrite Hrun.
  unfold app_listen, console_log, modify, mbind, eff_bind. simpl.
  by rewrite <-!(assoc_L (++)).
Qed.

End StartFacts.
